(** * lock-trace: call-path tracer and lock-context analyzer

    A shallow embedding of [lock_trace/call_tracer.py] and
    [lock_trace/lock_analyzer.py].

    Conventions of the embedding.
    - Python [str] is [string]; [int] is [Z]; [Set[str]] is [gset string];
      [Dict[str, int]] is [gmap string Z]; [Optional[T]] is [option T].
    - The cscope collaborator is a record of functions ([CscopeInterface]):
      the analyses run against a static snapshot of the code base, so a
      query is a function of its argument.  A query that times out raises in
      the source; the embedding describes the runs in which every query
      answers.
    - The recursive searches of the tracer are bounded by [max_depth]; the
      embedding makes the recursion structural on a [fuel] argument, returns
      [None] when the fuel runs out, and the theorems show that the fuel
      passed by the top-level operations always suffices. *)

From Stdlib Require Import ZArith List Ascii String Lia Sorted.
From stdpp Require Import base option list gmap sets strings.

#[local] Set Warnings "-clear-no-such-hyp".

Local Open Scope string_scope.
Local Open Scope Z_scope.
Local Open Scope list_scope.
Local Open Scope stdpp_scope.

(** ** Python primitives used by the two modules *)

Module Py.

(** [s.startswith(p)] *)
Fixpoint startswith (p s : string) : bool :=
  match p, s with
  | EmptyString, _ => true
  | String a p', String b s' => if Ascii.eqb a b then startswith p' s' else false
  | String _ _, EmptyString => false
  end.

(** [p in s] on strings: [p] occurs in [s] as a contiguous substring. *)
Fixpoint contains (p s : string) : bool :=
  startswith p s ||
  match s with
  | EmptyString => false
  | String _ s' => contains p s'
  end.

(** [sep.join(l)] *)
Fixpoint join (sep : string) (l : list string) : string :=
  match l with
  | [] => EmptyString
  | [x] => x
  | x :: l' => x +:+ sep +:+ join sep l'
  end.

(** Truthiness of an [Optional[Set[str]]]: [None] and the empty set are
    falsy. *)
Definition set_truthy (o : option (gset string)) : bool :=
  match o with
  | Some s => negb (bool_decide (s = ∅))
  | None => false
  end.

(** Truthiness of an [Optional[List[str]]]. *)
Definition list_truthy {A} (o : option (list A)) : bool :=
  match o with
  | Some (_ :: _) => true
  | _ => false
  end.

(** A [for] loop whose body may fail: the state is threaded through the
    elements in order and a failure aborts the loop. *)
Fixpoint for_each {A S : Type} (body : S → A → option S) (l : list A) (st : S)
  : option S :=
  match l with
  | [] => Some st
  | x :: l' =>
      match body st x with
      | Some st' => for_each body l' st'
      | None => None
      end
  end.

End Py.

(** ** The cscope collaborator ([cscope_interface.py]) *)

Record FunctionCall := mkFunctionCall {
  fc_function : string;
  fc_file : string;
  fc_line : Z;
  fc_context : string
}.

Record CscopeInterface := mkCscope {
  get_functions_called_by : string → list FunctionCall;
  get_functions_calling : string → list FunctionCall;
  get_callback_callers : string → list FunctionCall;
  find_function_definition : string → option FunctionCall
}.

(** ** The call tracer ([call_tracer.py]) *)

Record CallPath := mkCallPath {
  functions : list string;
  depth : Z
}.

Global Instance CallPath_eq_dec : EqDecision CallPath.
Proof. solve_decision. Defined.

Record CallTracer := mkCallTracer {
  cscope : CscopeInterface;
  tracer_max_depth : Z;
  enable_callback_search : bool
}.

(** [if max_depth is None: max_depth = self.max_depth] *)
Definition resolve_max_depth (self : CallTracer) (max_depth : option Z) : Z :=
  match max_depth with
  | Some d => d
  | None => tracer_max_depth self
  end.

(** [CallTracer._should_exclude_path] *)
Definition _should_exclude_path (self : CallTracer) (path : list string)
    (exclude_functions exclude_directories : option (gset string)) : bool :=
  if Py.set_truthy exclude_functions &&
     existsb (λ func, bool_decide (func ∈ default ∅ exclude_functions)) path
  then true
  else if Py.set_truthy exclude_directories then
    existsb (λ func,
      match find_function_definition (cscope self) func with
      | Some func_def =>
          if negb (String.eqb (fc_file func_def) "") then
            existsb (λ excluded_dir, Py.contains excluded_dir (fc_file func_def))
                    (elements (default ∅ exclude_directories))
          else false
      | None => false
      end) path
  else false.

(** The two mutable objects shared by the recursive calls of one trace:
    the accumulator [paths] and the set [visited]. *)
Record TraceState := mkTraceState {
  paths : list CallPath;
  visited : gset string
}.

Definition add_path (p : CallPath) (st : TraceState) : TraceState :=
  mkTraceState (paths st ++ [p]) (visited st).
Definition visited_add (f : string) (st : TraceState) : TraceState :=
  mkTraceState (paths st) ({[f]} ∪ visited st).
Definition visited_remove (f : string) (st : TraceState) : TraceState :=
  mkTraceState (paths st) (visited st ∖ {[f]}).

(** The caller lookup of [trace_callers]. *)
Definition callers_of (self : CallTracer) (current_func : string) : list FunctionCall :=
  if enable_callback_search self
  then get_callback_callers (cscope self) current_func
  else get_functions_calling (cscope self) current_func.

(** [_trace_recursive] of [trace_callers] *)
Fixpoint trace_callers_recursive (self : CallTracer) (max_depth : Z)
    (exclude_functions exclude_directories : option (gset string))
    (fuel : nat) (current_func : string) (path : list string) (depth : Z)
    (st : TraceState) : option TraceState :=
  match fuel with
  | O => None
  | S fuel' =>
      if bool_decide (depth > max_depth) || bool_decide (current_func ∈ visited st)
      then Some st
      else
        let current_path := path ++ [current_func] in
        let reversed_path := reverse current_path in
        let st :=
          if negb (_should_exclude_path self reversed_path
                     exclude_functions exclude_directories)
          then add_path (mkCallPath reversed_path depth) st
          else st in
        let st := visited_add current_func st in
        match
          Py.for_each
            (λ st caller,
               trace_callers_recursive self max_depth exclude_functions
                 exclude_directories fuel' (fc_function caller) current_path
                 (depth + 1) st)
            (callers_of self current_func) st
        with
        | Some st => Some (visited_remove current_func st)
        | None => None
        end
  end.

(** Recursion depth that a trace bounded by [max_depth] can reach. *)
Definition trace_fuel (max_depth : Z) : nat := S (Z.to_nat (max_depth + 1)).

(** [CallTracer.trace_callers] *)
Definition trace_callers (self : CallTracer) (target_function : string)
    (max_depth : option Z)
    (exclude_functions exclude_directories : option (gset string))
  : option (list CallPath) :=
  let max_depth := resolve_max_depth self max_depth in
  paths <$>
    trace_callers_recursive self max_depth exclude_functions exclude_directories
      (trace_fuel max_depth) target_function [] 0 (mkTraceState [] ∅).

(** [_trace_recursive] of [trace_callees] *)
Fixpoint trace_callees_recursive (self : CallTracer) (max_depth : Z)
    (exclude_functions exclude_directories : option (gset string))
    (fuel : nat) (current_func : string) (path : list string) (depth : Z)
    (st : TraceState) : option TraceState :=
  match fuel with
  | O => None
  | S fuel' =>
      if bool_decide (depth > max_depth) || bool_decide (current_func ∈ visited st)
      then Some st
      else
        let current_path := path ++ [current_func] in
        let st :=
          if negb (_should_exclude_path self current_path
                     exclude_functions exclude_directories)
          then add_path (mkCallPath current_path depth) st
          else st in
        let st := visited_add current_func st in
        match
          Py.for_each
            (λ st callee,
               trace_callees_recursive self max_depth exclude_functions
                 exclude_directories fuel' (fc_function callee) current_path
                 (depth + 1) st)
            (get_functions_called_by (cscope self) current_func) st
        with
        | Some st => Some (visited_remove current_func st)
        | None => None
        end
  end.

(** [CallTracer.trace_callees] *)
Definition trace_callees (self : CallTracer) (source_function : string)
    (max_depth : option Z)
    (exclude_functions exclude_directories : option (gset string))
  : option (list CallPath) :=
  let max_depth := resolve_max_depth self max_depth in
  paths <$>
    trace_callees_recursive self max_depth exclude_functions exclude_directories
      (trace_fuel max_depth) source_function [] 0 (mkTraceState [] ∅).

(** [_find_paths_recursive] of [find_call_paths].  [visited] is passed by
    value: the source hands every callee its own [visited.copy()]. *)
Fixpoint _find_paths_recursive (self : CallTracer) (max_depth : Z)
    (fuel : nat) (current_func target : string) (path : list string)
    (depth : Z) (visited : gset string) (paths : list CallPath)
  : option (list CallPath) :=
  match fuel with
  | O => None
  | S fuel' =>
      if bool_decide (depth > max_depth) then Some paths
      else if String.eqb current_func target then
        Some (paths ++ [mkCallPath (path ++ [current_func]) depth])
      else if bool_decide (current_func ∈ visited) then Some paths
      else
        let visited := {[current_func]} ∪ visited in
        Py.for_each
          (λ paths callee,
             _find_paths_recursive self max_depth fuel' (fc_function callee)
               target (path ++ [current_func]) (depth + 1) visited paths)
          (get_functions_called_by (cscope self) current_func) paths
  end.

(** [CallTracer.find_call_paths] *)
Definition find_call_paths (self : CallTracer) (from_function to_function : string)
    (max_depth : option Z) : option (list CallPath) :=
  let max_depth := resolve_max_depth self max_depth in
  _find_paths_recursive self max_depth (trace_fuel max_depth)
    from_function to_function [] 0 ∅ [].


(** [get_function_depth_map]: the [while queue] loop.  The queue holds
    [(function, depth)] pairs; [popleft] takes the head and [append] adds at
    the end.  The loop has no bound of its own: it runs as long as the queue
    is non-empty, so the embedding takes the number of iterations allowed as
    [fuel]. *)
Fixpoint depth_map_loop (self : CallTracer) (fuel : nat)
    (queue : list (string * Z)) (depth_map : gmap string Z)
  : option (gmap string Z) :=
  match queue with
  | [] => Some depth_map
  | (function, depth) :: queue =>
      match fuel with
      | O => None
      | S fuel' =>
          if match depth_map !! function with
             | Some d => bool_decide (d ≤ depth)
             | None => false
             end
          then depth_map_loop self fuel' queue depth_map
          else
            let depth_map := <[function := depth]> depth_map in
            let callees := get_functions_called_by (cscope self) function in
            depth_map_loop self fuel'
              (queue ++ ((λ callee, (fc_function callee, depth + 1)) <$> callees))
              depth_map
      end
  end.

(** [CallTracer.get_function_depth_map] *)
Definition get_function_depth_map (self : CallTracer) (fuel : nat)
    (root_functions : list string) : option (gmap string Z) :=
  depth_map_loop self fuel ((λ func, (func, 0)) <$> root_functions) ∅.

(** *** Unique chains *)

(** A [dict] with string keys, in insertion order: assigning to a key that
    is present replaces the value in place. *)
Fixpoint dict_get {V} (k : string) (d : list (string * V)) : option V :=
  match d with
  | [] => None
  | (k', v) :: d' => if String.eqb k' k then Some v else dict_get k d'
  end.

Fixpoint dict_set {V} (k : string) (v : V) (d : list (string * V))
  : list (string * V) :=
  match d with
  | [] => [(k, v)]
  | (k', v') :: d' =>
      if String.eqb k' k then (k, v) :: d' else (k', v') :: dict_set k v d'
  end.

(** [sorted]/[list.sort] are stable: of two elements neither of which has to
    come before the other, the one that was first stays first.  [lt a b]
    says that [a] has to come before [b]. *)
Fixpoint stable_insert {A} (lt : A → A → bool) (x : A) (l : list A) : list A :=
  match l with
  | [] => [x]
  | y :: l' => if lt y x then y :: stable_insert lt x l' else x :: y :: l'
  end.

Definition stable_sort {A} (lt : A → A → bool) (l : list A) : list A :=
  foldr (stable_insert lt) [] l.

(** [l[-n:]] for [n >= 0]: the last [n] elements; the whole list when
    [n = 0] (the slice [-0:] starts at index 0) or [n] exceeds the length. *)
Definition slice_last {A} (n : nat) (l : list A) : list A :=
  if (n =? 0)%nat then l else drop (length l - n) l.

(** [l[:n]] *)
Definition slice_first {A} (n : nat) (l : list A) : list A := take n l.

(** Step (1): group the paths by their string, keeping the longest. *)
Definition group_paths (all_paths : list CallPath) : list (string * CallPath) :=
  fold_left
    (λ path_groups path,
       let path_str := Py.join " -> " (functions path) in
       match dict_get path_str path_groups with
       | None => dict_set path_str path path_groups
       | Some old =>
           if (length (functions old) <? length (functions path))%nat
           then dict_set path_str path path_groups
           else path_groups
       end)
    all_paths [].

(** The inner loop of step (3): is [path_functions] the end (for caller
    chains) or the start (for callee chains) of a longer path already kept? *)
Definition is_subset_of_kept (slice : nat → list string → list string)
    (path_functions : list string) (unique_paths : list CallPath) : bool :=
  existsb
    (λ existing_path,
       let existing_functions := functions existing_path in
       (length path_functions <? length existing_functions)%nat &&
       bool_decide (slice (length path_functions) existing_functions = path_functions))
    unique_paths.

(** Steps (2) to (4), shared by the two operations up to the slice. *)
Definition filter_unique (slice : nat → list string → list string)
    (all_paths : list CallPath) : list CallPath :=
  let path_groups := group_paths all_paths in
  let sorted_paths :=
    stable_sort (λ p q, (length (functions q) <? length (functions p))%nat)
                (snd <$> path_groups) in
  let unique_paths :=
    fold_left
      (λ unique_paths path,
         if is_subset_of_kept slice (functions path) unique_paths
         then unique_paths
         else unique_paths ++ [path])
      sorted_paths [] in
  stable_sort
    (λ p q,
       let kp := (length (functions p), default "" (head (functions p))) in
       let kq := (length (functions q), default "" (head (functions q))) in
       (kp.1 <? kq.1)%nat || ((kp.1 =? kq.1)%nat && String.ltb kp.2 kq.2))
    unique_paths.

(** [CallTracer.get_unique_call_chains] *)
Definition get_unique_call_chains (self : CallTracer) (target_function : string)
    (max_depth : option Z)
    (exclude_functions exclude_directories : option (gset string))
  : option (list CallPath) :=
  filter_unique slice_last <$>
    trace_callers self target_function max_depth exclude_functions exclude_directories.

(** [CallTracer.get_unique_callee_chains] *)
Definition get_unique_callee_chains (self : CallTracer) (source_function : string)
    (max_depth : option Z)
    (exclude_functions exclude_directories : option (gset string))
  : option (list CallPath) :=
  filter_unique slice_first <$>
    trace_callees self source_function max_depth exclude_functions exclude_directories.

(** *** The search shared by [trace_callers] and [trace_callees]

    The two [_trace_recursive] closures differ in the relation they follow
    ([neighbours]) and in the orientation of the path they record
    ([orient]: reversed for callers, as it is for callees). *)

Section trace_engine.
Variable neighbours : string → list FunctionCall.
Variable orient : list string → list string.
Variable excluded : list string → bool.
Variable max_depth : Z.

Fixpoint trace_engine (fuel : nat) (current_func : string) (path : list string)
    (depth : Z) (st : TraceState) : option TraceState :=
  match fuel with
  | O => None
  | S fuel' =>
      if bool_decide (depth > max_depth) || bool_decide (current_func ∈ visited st)
      then Some st
      else
        let current_path := path ++ [current_func] in
        let st :=
          if negb (excluded (orient current_path))
          then add_path (mkCallPath (orient current_path) depth) st
          else st in
        let st := visited_add current_func st in
        match
          Py.for_each
            (λ st n, trace_engine fuel' (fc_function n) current_path (depth + 1) st)
            (neighbours current_func) st
        with
        | Some st => Some (visited_remove current_func st)
        | None => None
        end
  end.

(** [linked a l]: [a] followed by [l] is a chain in the relation, each
    function a neighbour of the one before it. *)
Fixpoint linked (a : string) (l : list string) : Prop :=
  match l with
  | [] => True
  | b :: l' => b ∈ (fc_function <$> neighbours a) ∧ linked b l'
  end.

(** What the search started at [current_func] with the accumulated [path]
    may record: the accumulated path extended by a chain [ext] from
    [current_func] that stays within the depth bound, repeats no function
    and is not excluded. *)
Definition recorded_from (path : list string) (current_func : string) (depth : Z)
    (p : CallPath) : Prop :=
  ∃ ext,
    p = mkCallPath (orient (path ++ current_func :: ext))
                   (depth + Z.of_nat (length ext)) ∧
    depth + Z.of_nat (length ext) ≤ max_depth ∧
    NoDup (path ++ current_func :: ext) ∧
    linked current_func ext ∧
    excluded (orient (path ++ current_func :: ext)) = false.

(** The state before and after a recursive call: [visited] is restored and
    [paths] only grows, by paths satisfying [Q]. *)
Definition extends (Q : CallPath → Prop) (st st' : TraceState) : Prop :=
  visited st' = visited st ∧
  ∃ new, paths st' = paths st ++ new ∧ Forall Q new.

End trace_engine.

(** The relations followed by the two traces, on function names. *)
Definition caller_names (self : CallTracer) (f : string) : list string :=
  fc_function <$> callers_of self f.
Definition callee_names (self : CallTracer) (f : string) : list string :=
  fc_function <$> get_functions_called_by (cscope self) f.

(** [is_chain step l]: every function of [l] but the first is related by
    [step] to the one before it. *)
Fixpoint is_chain (step : string → list string) (l : list string) : Prop :=
  match l with
  | a :: (b :: _) as l' => b ∈ step a ∧ is_chain step l'
  | _ => True
  end.

(** A proper suffix / prefix of a list. *)
Definition proper_suffix {A} (s l : list A) : Prop :=
  ∃ k, k ≠ [] ∧ l = k ++ s.
Definition proper_prefix {A} (s l : list A) : Prop :=
  ∃ k, k ≠ [] ∧ l = s ++ k.

(** [walk self roots f n]: [f] is reached from one of [roots] by [n] callee
    edges. *)
Inductive walk (self : CallTracer) (roots : list string) : string → Z → Prop :=
| walk_root r : r ∈ roots → walk self roots r 0
| walk_step f g n :
    walk self roots f n → g ∈ callee_names self f → walk self roots g (n + 1).

(** The call graph below [roots] is finite: [universe] lists the roots and
    is closed under the callee relation. *)
Definition closed_universe (self : CallTracer) (roots universe : list string) : bool :=
  forallb (λ r, bool_decide (r ∈ universe)) roots &&
  forallb (λ f, forallb (λ g, bool_decide (g ∈ universe)) (callee_names self f))
          universe.

(** The largest number of call sites in one function of [universe]. *)
Definition max_out (self : CallTracer) (universe : list string) : nat :=
  foldr Nat.max 0%nat
    ((λ f, length (get_functions_called_by (cscope self) f)) <$> universe).

(** Number of iterations that [get_function_depth_map] needs at most on a
    call graph within [universe]. *)
Definition depth_map_fuel (self : CallTracer) (roots universe : list string) : nat :=
  S (length roots + size (list_to_set universe : gset string) * S (max_out self universe)).

(** Invariants of the loop of [get_function_depth_map].  Every queued pair
    and every recorded depth is the length of a walk from a root. *)
Definition all_reached (self : CallTracer) (roots : list string)
    (queue : list (string * Z)) (depth_map : gmap string Z) : Prop :=
  (∀ f d, (f, d) ∈ queue → walk self roots f d) ∧
  (∀ f d, depth_map !! f = Some d → walk self roots f d).

(** [g] is queued or recorded with a depth of at most [k]. *)
Definition covered (queue : list (string * Z)) (depth_map : gmap string Z)
    (g : string) (k : Z) : Prop :=
  ∃ k', k' ≤ k ∧ ((g, k') ∈ queue ∨ depth_map !! g = Some k').

(** The roots, and the callees of every recorded function, are covered. *)
Definition closure_inv (self : CallTracer) (roots : list string)
    (queue : list (string * Z)) (depth_map : gmap string Z) : Prop :=
  (∀ r, r ∈ roots → covered queue depth_map r 0) ∧
  (∀ f d g, depth_map !! f = Some d → g ∈ callee_names self f →
            covered queue depth_map g (d + 1)).

(** The queue holds the rest of one level and then the start of the next,
    and no recorded depth exceeds the level of its head. *)
Definition level_inv (queue : list (string * Z)) (depth_map : gmap string Z) : Prop :=
  match queue with
  | [] => True
  | (_, d) :: rest =>
      (∃ q1 q2, rest = q1 ++ q2 ∧
                Forall (λ x, x.2 = d) q1 ∧ Forall (λ x, x.2 = d + 1) q2) ∧
      map_Forall (λ _ v, v ≤ d) depth_map
  end.

(** Queue and map stay within the universe [U]. *)
Definition within (U : gset string) (queue : list (string * Z))
    (depth_map : gmap string Z) : Prop :=
  (∀ f d, (f, d) ∈ queue → f ∈ U) ∧ dom depth_map ⊆ U.

(** The paths recorded by a whole trace from [root]. *)
Definition traced (neighbours : string → list FunctionCall)
    (orient : list string → list string) (excluded : list string → bool)
    (max_depth : Z) (root : string) (p : CallPath) : Prop :=
  ∃ chain,
    p = mkCallPath (orient chain) (Z.of_nat (length chain) - 1) ∧
    head chain = Some root ∧
    Z.of_nat (length chain) ≤ max_depth + 1 ∧
    NoDup chain ∧
    is_chain (λ f, fc_function <$> neighbours f) chain ∧
    excluded (orient chain) = false.


(** An accumulator that only grows, by elements satisfying [Q]. *)
Definition grows {A} (Q : A → Prop) (l l' : list A) : Prop :=
  ∃ new, l' = l ++ new ∧ Forall Q new.

(** What [_find_paths_recursive], called on [current_func] with the
    accumulated [path], may record: the accumulated path, then a chain of
    callees that starts at [current_func] and ends at [target], with no
    function twice. *)
Definition found_from (self : CallTracer) (max_depth : Z) (target : string)
    (path : list string) (current_func : string) (depth : Z) (p : CallPath) : Prop :=
  ∃ pre,
    p = mkCallPath (path ++ pre ++ [target]) (depth + Z.of_nat (length pre)) ∧
    head (pre ++ [target]) = Some current_func ∧
    NoDup (path ++ pre ++ [target]) ∧
    depth + Z.of_nat (length pre) ≤ max_depth ∧
    is_chain (callee_names self) (pre ++ [target]).

(** [p] occurs in [s] as a contiguous substring. *)
Definition substring (p s : string) : Prop := ∃ a b, s = a +:+ p +:+ b.

(** The body of the loop of step (3) of the unique-chain operations. *)
Definition keep_unique (slice : nat → list string → list string)
    (unique_paths : list CallPath) (path : CallPath) : list CallPath :=
  if is_subset_of_kept slice (functions path) unique_paths
  then unique_paths
  else unique_paths ++ [path].

(** No path of [ps] is subsumed ([sub]: as a proper suffix, or as a proper
    prefix) by another path of [ps]. *)
Definition irredundant_for (sub : list string → list string → Prop)
    (ps : list CallPath) : Prop :=
  ∀ p q, p ∈ ps → q ∈ ps → ¬ sub (functions p) (functions q).

(** ** The lock analyzer ([lock_analyzer.py]) *)

Inductive LockType := SPINLOCK | MUTEX | RWLOCK | RCU | SEMAPHORE | CUSTOM.

Record LockOperation := mkLockOperation {
  lock_name : string;
  lock_type : LockType;
  operation : string;  (* acquire or release *)
  op_function : string;
  op_file : string;
  op_line : Z;
  op_context : string
}.

Record LockContext := mkLockContext {
  ctx_function : string;
  held_locks : gset string;
  call_path : list string;
  lock_operations : list LockOperation
}.

Record LockAnalyzer := mkLockAnalyzer {
  la_cscope : CscopeInterface;
  call_tracer : CallTracer
}.

(** *** The regular expressions of the module

    Every pattern of the module is a sequence of the atoms below.  Texts are
    strings of bytes; the classes are the ASCII ones ([\s] also matches
    non-ASCII white space in Python, which the C sources analysed do not
    use around a call). *)

Inductive atom :=
| Chr (c : ascii)           (* a literal character *)
| Cls (p : ascii → bool)    (* one character of a class *)
| StarCls (p : ascii → bool) (* greedy [p*] *)
| OptChr (c : ascii)        (* greedy [c?] *)
| NotBehind (s : string)    (* negative lookbehind [(?<!s)] *)
| GroupOpen                 (* start of group 1 *)
| GroupClose.               (* end of group 1 *)

Definition in_range (lo hi : nat) (c : ascii) : bool :=
  let n := nat_of_ascii c in ((lo <=? n) && (n <=? hi))%nat.

(** [\s] *)
Definition is_space (c : ascii) : bool :=
  in_range 32 32 c || in_range 9 13 c || in_range 28 31 c.
(** [[a-zA-Z_]] *)
Definition ident_start (c : ascii) : bool :=
  in_range 97 122 c || in_range 65 90 c || Ascii.eqb c "_".
(** [[a-zA-Z0-9_]] *)
Definition ident_char (c : ascii) : bool :=
  ident_start c || in_range 48 57 c.

(** [str.lower] on ASCII letters *)
Definition lower_ascii (c : ascii) : ascii :=
  if in_range 65 90 c then ascii_of_nat (nat_of_ascii c + 32) else c.
Fixpoint lower (s : string) : string :=
  match s with
  | EmptyString => EmptyString
  | String c s' => String (lower_ascii c) (lower s')
  end.

Definition push (in_group : bool) (c : ascii) (grp : list ascii) : list ascii :=
  if in_group then c :: grp else grp.

Fixpoint is_prefix_ascii (p l : list ascii) : bool :=
  match p, l with
  | [], _ => true
  | a :: p', b :: l' => Ascii.eqb a b && is_prefix_ascii p' l'
  | _ :: _, [] => false
  end.

(** Backtracking match of [re] at the current position.  [before] is the
    text already behind the position, last character first; [rest] the text
    ahead; [grp] the text of group 1 so far, last character first.  Greedy
    atoms try the longer alternative first, as Python's matcher does. *)
Fixpoint match_here (re : list atom)
  : list ascii → list ascii → bool → list ascii → option (list ascii) :=
  match re with
  | [] => λ _ _ _ grp, Some grp
  | Chr c :: re' => λ before rest ing grp,
      match rest with
      | x :: rest' =>
          if Ascii.eqb x c
          then match_here re' (x :: before) rest' ing (push ing x grp)
          else None
      | [] => None
      end
  | Cls p :: re' => λ before rest ing grp,
      match rest with
      | x :: rest' =>
          if p x
          then match_here re' (x :: before) rest' ing (push ing x grp)
          else None
      | [] => None
      end
  | StarCls p :: re' =>
      fix star (before rest : list ascii) (ing : bool) (grp : list ascii)
        : option (list ascii) :=
        match rest with
        | x :: rest' =>
            if p x then
              match star (x :: before) rest' ing (push ing x grp) with
              | Some r => Some r
              | None => match_here re' before rest ing grp
              end
            else match_here re' before rest ing grp
        | [] => match_here re' before rest ing grp
        end
  | OptChr c :: re' => λ before rest ing grp,
      match rest with
      | x :: rest' =>
          if Ascii.eqb x c then
            match match_here re' (x :: before) rest' ing (push ing x grp) with
            | Some r => Some r
            | None => match_here re' before rest ing grp
            end
          else match_here re' before rest ing grp
      | [] => match_here re' before rest ing grp
      end
  | NotBehind s :: re' => λ before rest ing grp,
      if is_prefix_ascii (rev (list_ascii_of_string s)) before
      then None
      else match_here re' before rest ing grp
  | GroupOpen :: re' => λ before rest _ _, match_here re' before rest true []
  | GroupClose :: re' => λ before rest _ grp, match_here re' before rest false grp
  end.

(** [pattern.search]: the first position at which the pattern matches. *)
Fixpoint search_from (re : list atom) (before rest : list ascii)
  : option (list ascii) :=
  match match_here re before rest false [] with
  | Some grp => Some grp
  | None =>
      match rest with
      | x :: rest' => search_from re (x :: before) rest'
      | [] => None
      end
  end.

(** [re.search(re, s)]: [Some] of group 1 (empty when the pattern has no
    group) when the pattern matches somewhere in [s]. *)
Definition re_search (re : list atom) (s : string) : option string :=
  (λ grp, string_of_list_ascii (rev grp)) <$>
    search_from re [] (list_ascii_of_string s).

Definition lit (s : string) : list atom := Chr <$> list_ascii_of_string s.

(** The pattern of a call of [name]: the name, white space ([\s], any
    number), an opening parenthesis. *)
Definition call_re (name : string) : list atom :=
  lit name ++ [StarCls is_space; Chr "("%char].
(** The same pattern behind the negative lookbehind of [rcu_]. *)
Definition call_re_not_rcu (name : string) : list atom :=
  NotBehind "rcu_" :: call_re name.

(** [LockAnalyzer.LOCK_PATTERNS], in the order of the dictionary. *)
Definition LOCK_PATTERNS : list (LockType * list (string * list (list atom))) :=
  [ (SPINLOCK,
     [ ("acquire", call_re <$> ["spin_lock"; "spin_lock_irq"; "spin_lock_irqsave";
                                "spin_lock_bh"]);
       ("release", call_re <$> ["spin_unlock"; "spin_unlock_irq";
                                "spin_unlock_irqrestore"; "spin_unlock_bh"]) ]);
    (MUTEX,
     [ ("acquire", call_re <$> ["mutex_lock"; "mutex_lock_interruptible";
                                "mutex_trylock"]);
       ("release", call_re <$> ["mutex_unlock"]) ]);
    (RWLOCK,
     [ ("acquire", call_re_not_rcu <$> ["read_lock"; "write_lock"; "read_lock_irq";
                                        "write_lock_irq"; "read_lock_bh";
                                        "write_lock_bh"]);
       ("release", call_re_not_rcu <$> ["read_unlock"; "write_unlock";
                                        "read_unlock_irq"; "write_unlock_irq";
                                        "read_unlock_bh"; "write_unlock_bh"]) ]);
    (RCU,
     [ ("acquire", call_re <$> ["rcu_read_lock"; "rcu_read_lock_bh"]);
       ("release", call_re <$> ["rcu_read_unlock"; "rcu_read_unlock_bh"]) ]);
    (CUSTOM,
     [ ("acquire", call_re <$> ["rtnl_lock"; "rtnl_trylock"; "rtnl_net_lock";
                                "rtnl_nets_lock"; "netdev_lock_ops";
                                "netlink_table_grab"; "genl_lock"]);
       ("release", call_re <$> ["rtnl_unlock"; "rtnl_net_unlock"; "rtnl_nets_unlock";
                                "netdev_unlock_ops"; "netlink_table_ungrab";
                                "genl_unlock"]) ]) ].

(** [LockAnalyzer.LOCK_MATCHING_CONFIG]: [(lock_name_patterns, generic_targets)]. *)
Definition LOCK_MATCHING_CONFIG : list (list string * list string) :=
  [ (["rcu_read_lock"; "rcu_read_unlock"], ["rcu"; "rcu_lock"]);
    (["rtnl"], ["rtnl"; "rtnl_lock"]);
    (["netdev_"], ["netdev"; "netdev_lock"]);
    (["spin_lock"; "spin_unlock"], ["spin"; "spin_lock"; "spinlock"]);
    (["mutex_lock"; "mutex_unlock"], ["mutex"; "mutex_lock"]) ].

(** The pattern of a single argument: an opening parenthesis, an optional
    ampersand, an identifier (group 1), a closing parenthesis. *)
Definition argument_re : list atom :=
  [Chr "("%char; OptChr "&"%char; GroupOpen; Cls ident_start; StarCls ident_char;
   GroupClose; Chr ")"%char].
(** The pattern of a callee: an identifier (group 1), white space, an
    opening parenthesis. *)
Definition callee_re : list atom :=
  [GroupOpen; Cls ident_start; StarCls ident_char; GroupClose;
   StarCls is_space; Chr "("%char].

(** [LockAnalyzer._extract_lock_name] *)
Definition _extract_lock_name (context function_name : string) : string :=
  let function_name_prefixes := ["rcu_read_"; "rtnl"; "netdev_"; "netlink_"; "genl"] in
  let by_name :=
    if existsb (λ prefix, Py.startswith prefix function_name) function_name_prefixes
    then
      if Py.startswith "rtnl" function_name || Py.startswith "netdev_" function_name
      then
        if Py.contains "lock" function_name || Py.contains "unlock" function_name
        then Some function_name
        else None
      else Some function_name
    else None in
  match by_name with
  | Some name => name
  | None =>
      match re_search argument_re context with
      | Some group1 => group1
      | None =>
          match re_search callee_re context with
          | Some group1 =>
              if negb (String.eqb group1 function_name) then group1
              else function_name
          | None => function_name
          end
      end
  end.

(** [LockAnalyzer._identify_lock_operation]: for every lock type and
    operation type, the first pattern that matches yields one operation
    ([break] leaves the loop over the patterns of that operation type). *)
Definition _identify_lock_operation (call : FunctionCall) (caller_function : string)
  : list LockOperation :=
  flat_map
    (λ '(lock_type, ops),
       flat_map
         (λ '(op_type, patterns),
            if existsb
                 (λ pattern,
                    bool_decide (is_Some (re_search pattern (fc_context call))) ||
                    bool_decide (is_Some (re_search pattern (fc_function call))))
                 patterns
            then
              [mkLockOperation
                 (_extract_lock_name (fc_context call) (fc_function call))
                 lock_type op_type caller_function
                 (fc_file call) (fc_line call) (fc_context call)]
            else [])
         ops)
    LOCK_PATTERNS.

(** [LockAnalyzer.find_lock_operations] *)
Definition find_lock_operations (self : LockAnalyzer) (function : string)
  : list LockOperation :=
  flat_map (λ call, _identify_lock_operation call function)
           (get_functions_called_by (la_cscope self) function).

(** The first loop of [_filter_operations_before_call]: the line of the
    first call site of [target_function] among the calls of the caller. *)
Definition target_call_line (self : LockAnalyzer)
    (caller_function target_function : string) : option Z :=
  fc_line <$>
    find (λ call, String.eqb (fc_function call) target_function)
         (get_functions_called_by (la_cscope self) caller_function).

(** [LockAnalyzer._filter_operations_before_call] *)
Definition _filter_operations_before_call (self : LockAnalyzer)
    (caller_function target_function : string) (operations : list LockOperation)
  : list LockOperation :=
  match target_call_line self caller_function target_function with
  | None => operations
  | Some target_call_line =>
      List.filter (λ op, op_line op <? target_call_line) operations
  end.

(** [LockAnalyzer._lock_matches_target] *)
Definition _lock_matches_target (lock_name : string) (target_locks : list string)
  : bool :=
  if bool_decide (lock_name ∈ target_locks) then true
  else
    existsb
      (λ '(lock_name_patterns, generic_targets),
         existsb (λ pattern, Py.contains pattern (lower lock_name)) lock_name_patterns &&
         existsb (λ target, bool_decide (lower target ∈ generic_targets)) target_locks)
      LOCK_MATCHING_CONFIG.

(** The sets updated by the loop over the operations of one function. *)
Record TrackState := mkTrack {
  held : gset string;
  function_acquires : gset string;
  function_releases : gset string;
  protected_by : gset string
}.

(** [matches_target] of [_analyze_path_locks] *)
Definition matches_target (target_locks : option (list string)) (op : LockOperation)
  : bool :=
  negb (Py.list_truthy target_locks) ||
  _lock_matches_target (lock_name op) (default [] target_locks).

(** The body of [for op in operations] in [_analyze_path_locks]. *)
Definition track_operation (target_locks : option (list string))
    (ts : TrackState) (op : LockOperation) : TrackState :=
  if matches_target target_locks op then
    let display_name := lock_name op in
    if String.eqb (operation op) "acquire" then
      mkTrack ({[display_name]} ∪ held ts)
              ({[display_name]} ∪ function_acquires ts)
              (function_releases ts)
              ({[display_name]} ∪ protected_by ts)
    else if String.eqb (operation op) "release" then
      mkTrack (held ts ∖ {[display_name]})
              (function_acquires ts)
              ({[display_name]} ∪ function_releases ts)
              (protected_by ts)
    else ts
  else ts.

(** The three objects updated by the walk along the path. *)
Record PathState := mkPathState {
  ps_held_locks : gset string;
  ps_all_operations : list LockOperation;
  ps_protected_by_locks : gset string
}.

(** [call_path.functions[-1]] *)
Definition last_function (call_path : CallPath) : string :=
  default "" (last (functions call_path)).

(** [call_path.functions[:-1] if len(call_path.functions) > 1 else []] *)
Definition path_functions (call_path : CallPath) : list string :=
  if (1 <? length (functions call_path))%nat
  then removelast (functions call_path)
  else [].

(** The operations of path function number [i] that take part in state
    tracking. *)
Definition operations_for_state (self : LockAnalyzer) (call_path : CallPath)
    (i : nat) (function : string) : list LockOperation :=
  let operations := find_lock_operations self function in
  if bool_decide (Z.of_nat i = Z.of_nat (length (path_functions call_path)) - 1)
  then _filter_operations_before_call self function (last_function call_path) operations
  else operations.

(** The body of [for i, function in enumerate(path_functions)]. *)
Definition analyze_function (self : LockAnalyzer) (call_path : CallPath)
    (target_locks : option (list string)) (st : PathState) (i : nat)
    (function : string) : PathState :=
  let original_operations := find_lock_operations self function in
  let operations := operations_for_state self call_path i function in
  let ts :=
    fold_left (track_operation target_locks) operations
      (mkTrack (ps_held_locks st) ∅ ∅ (ps_protected_by_locks st)) in
  mkPathState
    (held ts)
    (ps_all_operations st ++ original_operations)
    (* for lock in function_acquires: if lock in function_releases: add *)
    (protected_by ts ∪ (function_acquires ts ∩ function_releases ts)).

(** [for i, function in enumerate(path_functions)], from index [i] on. *)
Fixpoint walk_path (self : LockAnalyzer) (call_path : CallPath)
    (target_locks : option (list string)) (i : nat) (fs : list string)
    (st : PathState) : PathState :=
  match fs with
  | [] => st
  | function :: fs' =>
      walk_path self call_path target_locks (S i) fs'
        (analyze_function self call_path target_locks st i function)
  end.

(** The state at the end of the walk of [_analyze_path_locks]. *)
Definition walk_result (self : LockAnalyzer) (call_path : CallPath)
    (target_locks : option (list string)) : PathState :=
  walk_path self call_path target_locks 0 (path_functions call_path)
    (mkPathState ∅ [] ∅).

(** [LockAnalyzer._analyze_path_locks] *)
Definition _analyze_path_locks (self : LockAnalyzer) (call_path : CallPath)
    (target_locks : option (list string)) : LockContext :=
  let st := walk_result self call_path target_locks in
  let held_locks :=
    if bool_decide (ps_held_locks st = ∅) &&
       negb (bool_decide (ps_protected_by_locks st = ∅)) &&
       negb (Py.list_truthy target_locks)
    then ps_protected_by_locks st
    else ps_held_locks st in
  mkLockContext
    (match functions call_path with [] => "" | _ => last_function call_path end)
    held_locks
    (functions call_path)
    (ps_all_operations st).

(** [LockAnalyzer.analyze_lock_context] *)
Definition analyze_lock_context (self : LockAnalyzer) (target_function : string)
    (target_locks : option (list string)) (unique_only : bool)
    (exclude_functions exclude_directories : option (gset string))
  : option (list LockContext) :=
  (λ call_paths : list CallPath,
     (λ path, _analyze_path_locks self path target_locks) <$> call_paths) <$>
    (if unique_only
     then get_unique_call_chains (call_tracer self) target_function None
            exclude_functions exclude_directories
     else trace_callers (call_tracer self) target_function None
            exclude_functions exclude_directories).

(** *** Notions used to state the properties of the walk *)

(** The operations that take part in state tracking along the whole path,
    in the order in which the walk meets them. *)
Definition tracked_operations (self : LockAnalyzer) (call_path : CallPath)
  : list LockOperation :=
  match reverse (path_functions call_path) with
  | [] => []
  | caller :: rev_before =>
      flat_map (find_lock_operations self) (reverse rev_before) ++
      _filter_operations_before_call self caller (last_function call_path)
        (find_lock_operations self caller)
  end.

Definition is_acquire (target_locks : option (list string)) (op : LockOperation) : bool :=
  matches_target target_locks op && String.eqb (operation op) "acquire".
Definition is_release (target_locks : option (list string)) (op : LockOperation) : bool :=
  matches_target target_locks op && negb (String.eqb (operation op) "acquire") &&
  String.eqb (operation op) "release".

(** [still_held target_locks ops l]: [ops] acquires [l] and does not
    release it afterwards. *)
Definition still_held (target_locks : option (list string))
    (ops : list LockOperation) (l : string) : Prop :=
  ∃ ops1 a ops2,
    ops = ops1 ++ a :: ops2 ∧
    is_acquire target_locks a = true ∧ lock_name a = l ∧
    ∀ r, r ∈ ops2 → is_release target_locks r = true → lock_name r ≠ l.

(** [acquired target_locks ops l]: some operation of [ops] acquires [l]. *)
Definition acquired (target_locks : option (list string))
    (ops : list LockOperation) (l : string) : Prop :=
  ∃ a, a ∈ ops ∧ is_acquire target_locks a = true ∧ lock_name a = l.

(** The held set and the protection-evidence set after tracking [ops] in
    order, without the per-function bookkeeping of the walk. *)
Definition simulate (target_locks : option (list string))
    (ops : list LockOperation) (hp : gset string * gset string)
  : gset string * gset string :=
  fold_left
    (λ hp op,
       if is_acquire target_locks op
       then ({[lock_name op]} ∪ hp.1, {[lock_name op]} ∪ hp.2)
       else if is_release target_locks op
       then (hp.1 ∖ {[lock_name op]}, hp.2)
       else hp)
    ops hp.

(** The [held_locks] that [_analyze_path_locks] reports when the operations
    tracked along the path are [ops]. *)
Definition held_after (target_locks : option (list string))
    (ops : list LockOperation) : gset string :=
  let hp := simulate target_locks ops (∅, ∅) in
  if bool_decide (hp.1 = ∅) && negb (bool_decide (hp.2 = ∅)) &&
     negb (Py.list_truthy target_locks)
  then hp.2
  else hp.1.

(** ** Scenarios *)

Definition call (function : string) (line : Z) (context : string) : FunctionCall :=
  mkFunctionCall function "file.c" line context.

(** A code base given by its two call relations and its definitions. *)
Definition code_base (called_by calling : string → list FunctionCall)
    (definition : string → option FunctionCall) : LockAnalyzer :=
  let cs := mkCscope called_by calling calling definition in
  mkLockAnalyzer cs (mkCallTracer cs 10 true).

(** The functions called by [A]; no other function calls anything. *)
Definition only_A (calls : list FunctionCall) (f : string) : list FunctionCall :=
  if String.eqb f "A" then calls else [].

(** [A] runs [rtnl_lock()] at line 10 and [rtnl_unlock()] at line 20, then
    calls [B]. *)
Definition rtnl_section : LockAnalyzer :=
  code_base
    (only_A [call "rtnl_lock" 10 "rtnl_lock();";
             call "rtnl_unlock" 20 "rtnl_unlock();";
             call "B" 30 "B();"])
    (λ f, if String.eqb f "B" then [call "A" 30 "B();"] else [])
    (λ _, None).

(** [A] takes and releases the spinlock [L], then calls [B]. *)
Definition spin_section : LockAnalyzer :=
  code_base
    (only_A [call "spin_lock" 10 "spin_lock(&L);";
             call "spin_unlock" 20 "spin_unlock(&L);";
             call "B" 30 "B();"])
    (λ f, if String.eqb f "B" then [call "A" 30 "B();"] else [])
    (λ _, None).

(** [A] calls [B] at line 15 and [spin_lock(&M)] at line 20. *)
Definition lock_after_call : LockAnalyzer :=
  code_base
    (only_A [call "B" 15 "B();"; call "spin_lock" 20 "spin_lock(&M);"])
    (λ f, if String.eqb f "B" then [call "A" 15 "B();"] else [])
    (λ _, None).

(** [A] reaches [B] only through the function pointer [handler], invoked at
    line 15, and calls [spin_lock(&M)] at line 20. *)
Definition lock_after_pointer_call : LockAnalyzer :=
  code_base
    (only_A [call "handler" 15 "ops->handler(dev);";
             call "spin_lock" 20 "spin_lock(&M);"])
    (λ f, if String.eqb f "handler" then [call "A" 15 "ops->handler(dev);"] else [])
    (λ _, None).

(** The two-node cycle: [A] calls [B] and [B] calls [A].  [A] is defined
    under [net/], [B] under [drivers/]. *)
Definition two_cycle : LockAnalyzer :=
  code_base
    (λ f, if String.eqb f "A" then [call "B" 5 "B();"]
          else if String.eqb f "B" then [call "A" 7 "A();"] else [])
    (λ f, if String.eqb f "A" then [call "B" 7 "A();"]
          else if String.eqb f "B" then [call "A" 5 "B();"] else [])
    (λ f, if String.eqb f "A" then Some (mkFunctionCall "A" "net/core/a.c" 1 "void A(void)")
          else if String.eqb f "B" then Some (mkFunctionCall "B" "drivers/b.c" 1 "void B(void)")
          else None).


(** ** Further operations of the two modules *)

(** The result of [CallTracer.get_call_statistics]: the four counts of the
    dictionary it returns. *)
Record CallStatistics := mkCallStatistics {
  caller_count : nat;
  callee_count : nat;
  unique_callers : nat;
  unique_callees : nat
}.

(** [CallTracer.get_call_statistics] *)
Definition get_call_statistics (self : CallTracer) (function : string)
  : CallStatistics :=
  let callers := get_functions_calling (cscope self) function in
  let callees := get_functions_called_by (cscope self) function in
  mkCallStatistics
    (length callers)
    (length callees)
    (size (list_to_set (fc_function <$> callers) : gset string))
    (size (list_to_set (fc_function <$> callees) : gset string)).

(** [CallPath.__str__] *)
Definition path_str (functions : list string) : string := Py.join " -> " functions.


(** [LockAnalyzer.find_unprotected_calls] *)
Definition find_unprotected_calls (self : LockAnalyzer) (function : string)
    (required_locks : list string) (unique_only : bool)
    (exclude_functions exclude_directories : option (gset string))
  : option (list LockContext) :=
  (λ contexts : list LockContext,
     List.filter
       (λ context,
          let missing_locks :=
            (list_to_set required_locks : gset string) ∖ held_locks context in
          negb (bool_decide (missing_locks = ∅)))
       contexts) <$>
    analyze_lock_context self function (Some required_locks) unique_only
      exclude_functions exclude_directories.

(** The result of [LockAnalyzer.get_lock_summary]; [locks_encountered] is
    the set whose elements the source lists. *)
Record LockSummary := mkLockSummary {
  summary_function : string;
  total_call_paths : nat;
  protected_paths : nat;
  unprotected_paths : nat;
  locks_encountered : gset string;
  lock_count : nat
}.

(** The loop of [get_lock_summary] over the contexts. *)
Definition summary_loop (contexts : list LockContext)
  : gset string * nat * nat :=
  fold_left
    (λ '(all_locks, protected_paths, unprotected_paths) context,
       let all_locks := all_locks ∪ held_locks context in
       if negb (bool_decide (held_locks context = ∅))
       then (all_locks, S protected_paths, unprotected_paths)
       else (all_locks, protected_paths, S unprotected_paths))
    contexts (∅, 0%nat, 0%nat).

(** [LockAnalyzer.get_lock_summary] *)
Definition get_lock_summary (self : LockAnalyzer) (function : string)
  : option LockSummary :=
  (λ contexts : list LockContext,
     let '(all_locks, protected_paths, unprotected_paths) := summary_loop contexts in
     mkLockSummary function (length contexts) protected_paths unprotected_paths
       all_locks (size all_locks)) <$>
    analyze_lock_context self function None true None None.

(** *** Notions used to state further properties *)

(** [a] comes immediately before [b] in [l]. *)
Definition adjacent {A} (a b : A) (l : list A) : Prop :=
  ∃ l1 l2, l = l1 ++ a :: b :: l2.

(** The paths of [ps] that have the same string have the same functions
    (as they do when no function name holds the separator of the string). *)
Definition distinct_strings (ps : list CallPath) : bool :=
  forallb
    (λ p, forallb
            (λ q, implb (String.eqb (path_str (functions p)) (path_str (functions q)))
                        (bool_decide (functions p = functions q)))
            ps)
    ps.

(** The functions of the read/write-lock patterns of [LOCK_PATTERNS]. *)
Definition rwlock_functions : list string :=
  ["read_lock"; "write_lock"; "read_lock_irq"; "write_lock_irq"; "read_lock_bh";
   "write_lock_bh"; "read_unlock"; "write_unlock"; "read_unlock_irq";
   "write_unlock_irq"; "read_unlock_bh"; "write_unlock_bh"].

(** [name] occurs in [text] at a place that does not follow [rcu_]. *)
Definition occurs_not_after_rcu (name text : string) : Prop :=
  ∃ a b, text = a +:+ name +:+ b ∧ ¬ ∃ a', a = a' +:+ "rcu_".

(** *** The call tree ([build_call_tree])

    A node is the dictionary with the keys [_children], [_is_leaf] and
    [_depth]; a tree, and the children of a node, is a dictionary from
    function names to nodes, in insertion order. *)
#[local] Set Warnings "-register-all".
Inductive TreeNode := mkTreeNode {
  _children : list (string * TreeNode);
  _is_leaf : bool;
  _depth : Z
}.

(** The inner loop of [build_call_tree], from index [i] of a path of [n]
    functions on: [current] is the dictionary the loop has walked down to. *)
Fixpoint insert_path (n i : Z) (fs : list string) (current : list (string * TreeNode))
  : list (string * TreeNode) :=
  match fs with
  | [] => current
  | function :: fs' =>
      let node :=
        match dict_get function current with
        | Some node => node
        | None => mkTreeNode [] (bool_decide (i = n - 1)) i
        end in
      let node :=
        if bool_decide (i < n - 1)
        then mkTreeNode (_children node) false (_depth node)
        else node in
      dict_set function
        (mkTreeNode (insert_path n (i + 1) fs' (_children node))
                    (_is_leaf node) (_depth node))
        current
  end.

(** [CallTracer.build_call_tree] *)
Definition build_call_tree (paths : list CallPath) : list (string * TreeNode) :=
  fold_left
    (λ tree path,
       insert_path (Z.of_nat (length (functions path))) 0 (functions path) tree)
    paths [].

(** The node that the sequence of functions [fs] leads to in [tree]. *)
Fixpoint node_at (fs : list string) (tree : list (string * TreeNode))
  : option TreeNode :=
  match fs with
  | [] => None
  | f :: fs' =>
      match dict_get f tree with
      | Some node =>
          match fs' with
          | [] => Some node
          | _ :: _ => node_at fs' (_children node)
          end
      | None => None
      end
  end.

(** Every node below level [i] records its level as its depth and is a leaf
    exactly when it has no children. *)
Fixpoint wf_node (i : Z) (node : TreeNode) : Prop :=
  match node with
  | mkTreeNode children is_leaf depth =>
      depth = i ∧ (is_leaf = true ↔ children = []) ∧
      (fix wf_list (l : list (string * TreeNode)) : Prop :=
         match l with
         | [] => True
         | (_, child) :: l' => wf_node (i + 1) child ∧ wf_list l'
         end) children
  end.

Definition wf_tree (i : Z) (tree : list (string * TreeNode)) : Prop :=
  Forall (λ kv, wf_node i kv.2) tree.

(** * Facts *)

(** ** Reasoning about [for] loops *)
Section for_each_facts.
Context {A S : Type} (body : S → A → option S).

Lemma for_each_app l1 l2 st :
  Py.for_each body (l1 ++ l2) st = Py.for_each body l1 st ≫= Py.for_each body l2.
Proof.
  revert st. induction l1 as [|x l1 IH]; intros st; simpl; [done|].
  destruct (body st x); simpl; auto.
Qed.

Lemma for_each_ext (body' : S → A → option S) l st :
  (∀ s x, body s x = body' s x) → Py.for_each body l st = Py.for_each body' l st.
Proof.
  intros Hb. revert st. induction l as [|x l IH]; intros st; simpl; [done|].
  rewrite <-Hb. destruct (body st x); auto.
Qed.

Lemma for_each_total l st :
  (∀ s x, x ∈ l → is_Some (body s x)) → is_Some (Py.for_each body l st).
Proof.
  revert st. induction l as [|x l IH]; intros st Hb; simpl; [eauto|].
  destruct (Hb st x) as [s' Hs']; [left|]. rewrite Hs'.
  apply IH. intros s y Hy. apply Hb. by right.
Qed.

(** A relation between the state before and after each iteration that is
    reflexive and transitive relates the states around the whole loop. *)
Lemma for_each_rel (Pre : S → Prop) (R : S → S → Prop) l st st' :
  (∀ s, R s s) →
  (∀ a b c, R a b → R b c → R a c) →
  (∀ a b, Pre a → R a b → Pre b) →
  (∀ s x s', x ∈ l → Pre s → body s x = Some s' → R s s') →
  Pre st → Py.for_each body l st = Some st' → R st st'.
Proof.
  intros Hrefl Htrans Hpre. revert st.
  induction l as [|x l IH]; intros st Hb HP Hrun; simpl in Hrun.
  - injection Hrun as <-. apply Hrefl.
  - destruct (body st x) as [s1|] eqn:Hx; [|done].
    assert (R st s1) as H1 by (eapply Hb; [left|done..]).
    eapply Htrans; [exact H1|].
    apply IH; [|by eapply Hpre|done].
    intros s y s' Hy. apply Hb. by right.
Qed.

(** The iteration of a given element of the list, inside the loop. *)
Lemma for_each_elem (Pre : S → Prop) (R : S → S → Prop) l st st' x :
  (∀ s, R s s) →
  (∀ a b c, R a b → R b c → R a c) →
  (∀ a b, Pre a → R a b → Pre b) →
  (∀ s y s', y ∈ l → Pre s → body s y = Some s' → R s s') →
  Pre st → Py.for_each body l st = Some st' → x ∈ l →
  ∃ s s', Pre s ∧ R st s ∧ body s x = Some s' ∧ R s' st'.
Proof.
  intros Hrefl Htrans Hpre Hb HP Hrun Hx.
  apply list_elem_of_split in Hx as (l1 & l2 & ->).
  rewrite for_each_app in Hrun.
  destruct (Py.for_each body l1 st) as [s|] eqn:H1; [|done].
  simpl in Hrun. destruct (body s x) as [s'|] eqn:H2; [|done].
  assert (R st s) as Hs.
  { eapply (for_each_rel Pre R l1); eauto.
    intros ? y ? Hy. apply Hb. apply elem_of_app. by left. }
  exists s, s'. split_and!; eauto.
  eapply (for_each_rel Pre R l2); eauto.
  - intros ? y ? Hy. apply Hb. apply elem_of_app. right. by right.
  - eapply Hpre; [|eapply Hb; [| |exact H2]]; eauto.
    apply elem_of_app. right. left.
Qed.
End for_each_facts.

(** ** The search shared by [trace_callers] and [trace_callees] *)

Section trace_engine_facts.
Variable neighbours : string → list FunctionCall.
Variable orient : list string → list string.
Variable excluded : list string → bool.
Variable max_depth : Z.

Local Abbreviation engine := (trace_engine neighbours orient excluded max_depth).
Local Abbreviation chain_from := (linked neighbours).
Local Abbreviation recorded := (recorded_from neighbours orient excluded max_depth).

Lemma extends_refl Q st : extends Q st st.
Proof. split; [done|]. exists []. by rewrite app_nil_r. Qed.

Lemma extends_trans Q a b c : extends Q a b → extends Q b c → extends Q a c.
Proof.
  intros [Hv1 (n1 & Hp1 & HQ1)] [Hv2 (n2 & Hp2 & HQ2)]. split; [congruence|].
  exists (n1 ++ n2). rewrite Hp2, Hp1, <-app_assoc. split; [done|].
  by apply Forall_app.
Qed.

Lemma extends_mono (Q Q' : CallPath → Prop) a b :
  (∀ p, Q p → Q' p) → extends Q a b → extends Q' a b.
Proof.
  intros HQ [Hv (n & Hp & Hn)]. split; [done|]. exists n. split; [done|].
  eapply Forall_impl; eauto.
Qed.

Lemma extends_elem Q a b p : extends Q a b → p ∈ paths a → p ∈ paths b.
Proof. intros [_ (n & -> & _)] Hp. apply elem_of_app. by left. Qed.

Lemma recorded_from_step path cur depth c p :
  c ∈ (fc_function <$> neighbours cur) →
  recorded (path ++ [cur]) c (depth + 1) p →
  recorded path cur depth p.
Proof.
  intros Hc (ext & -> & Hd & Hnd & Hl & Hex).
  exists (c :: ext). rewrite <-app_assoc in *. simpl in *.
  replace (depth + Z.of_nat (S (length ext))) with (depth + 1 + Z.of_nat (length ext)) by lia.
  split_and!; auto.
Qed.

(** The search terminates within the fuel that the depth bound allows. *)
Lemma trace_engine_total fuel cur path depth st :
  (Z.to_nat (max_depth + 1 - depth) < fuel)%nat →
  is_Some (engine fuel cur path depth st).
Proof.
  revert cur path depth st. induction fuel as [|fuel IH]; intros cur path depth st Hf; [lia|].
  simpl. destruct (bool_decide (depth > max_depth)) eqn:Hd; simpl; [eauto|].
  apply bool_decide_eq_false in Hd.
  destruct (bool_decide (cur ∈ visited st)); [eauto|].
  match goal with |- is_Some (match ?x with _ => _ end) =>
    assert (is_Some x) as [s ->]; [|eauto] end.
  apply for_each_total. intros s x _. apply IH. lia.
Qed.

(** Soundness: the search restores [visited] and records only chains. *)
Lemma trace_engine_sound fuel cur path depth st st' :
  NoDup path → visited st = list_to_set path →
  engine fuel cur path depth st = Some st' →
  extends (recorded path cur depth) st st'.
Proof.
  revert cur path depth st st'.
  induction fuel as [|fuel IH]; intros cur path depth st st' Hnd Hvis Hrun; [done|].
  simpl in Hrun.
  destruct (bool_decide (depth > max_depth)) eqn:Hd; simpl in Hrun.
  { injection Hrun as <-. apply extends_refl. }
  apply bool_decide_eq_false in Hd.
  destruct (bool_decide (cur ∈ visited st)) eqn:Hin.
  { injection Hrun as <-. apply extends_refl. }
  apply bool_decide_eq_false in Hin.
  assert (NoDup (path ++ [cur])) as Hnd'.
  { apply NoDup_app. split_and!; [done| |apply NoDup_singleton].
    intros x Hx Hx'%list_elem_of_singleton. subst x. apply Hin. rewrite Hvis. set_solver. }
  set (st0 := if negb (excluded (orient (path ++ [cur])))
              then add_path (mkCallPath (orient (path ++ [cur])) depth) st else st) in *.
  assert (extends (recorded path cur depth) st st0) as H0.
  { subst st0. destruct (excluded (orient (path ++ [cur]))) eqn:Hex; simpl;
      [apply extends_refl|].
    split; [done|]. eexists [_]. split; [done|]. apply Forall_singleton.
    exists []. simpl. rewrite Z.add_0_r. split_and!; auto; lia. }
  destruct (Py.for_each _ _ _) as [s1|] eqn:Hloop; [|done].
  injection Hrun as <-.
  assert (extends (recorded path cur depth) (visited_add cur st0) s1) as H1.
  { eapply (for_each_rel _ (λ s, visited s = list_to_set (path ++ [cur])));
      [apply extends_refl|apply extends_trans| | | |exact Hloop].
    - intros a b Ha [Hb _]. congruence.
    - intros s x s' Hx Hs Hb.
      apply (extends_mono (recorded (path ++ [cur]) (fc_function x) (depth + 1))).
      + intros p. apply recorded_from_step. by apply list_elem_of_fmap_2.
      + by apply (IH _ _ _ s s').
    - simpl. destruct H0 as [-> _]. rewrite Hvis. set_solver. }
  destruct H0 as [Hv0 (n0 & Hp0 & Hn0)]. destruct H1 as [Hv1 (n1 & Hp1 & Hn1)].
  split.
  - simpl. rewrite Hv1. simpl. rewrite Hv0. set_solver.
  - exists (n0 ++ n1). simpl. rewrite Hp1. simpl. rewrite Hp0, <-app_assoc.
    split; [done|]. by apply Forall_app.
Qed.

(** Completeness: every chain within the depth bound that repeats no
    function and is not excluded is recorded. *)
Lemma trace_engine_complete fuel cur path depth st st' ext :
  NoDup path → visited st = list_to_set path →
  engine fuel cur path depth st = Some st' →
  chain_from cur ext →
  NoDup (path ++ cur :: ext) →
  depth + Z.of_nat (length ext) ≤ max_depth →
  excluded (orient (path ++ cur :: ext)) = false →
  mkCallPath (orient (path ++ cur :: ext)) (depth + Z.of_nat (length ext))
    ∈ paths st'.
Proof.
  revert cur path depth st st' ext.
  induction fuel as [|fuel IH];
    intros cur path depth st st' ext Hnd Hvis Hrun Hl Hnd' Hd Hex; [done|].
  pose proof Hrun as Hrun0.
  simpl in Hrun.
  destruct (bool_decide (depth > max_depth)) eqn:Hdd; simpl in Hrun.
  { apply bool_decide_eq_true in Hdd. lia. }
  destruct (bool_decide (cur ∈ visited st)) eqn:Hin.
  { apply bool_decide_eq_true in Hin. rewrite Hvis in Hin.
    apply elem_of_list_to_set in Hin.
    apply NoDup_app in Hnd' as (_ & Hdis & _). exfalso.
    apply (Hdis cur Hin). left. }
  set (st0 := if negb (excluded (orient (path ++ [cur])))
              then add_path (mkCallPath (orient (path ++ [cur])) depth) st else st) in *.
  destruct (Py.for_each _ _ _) as [s1|] eqn:Hloop; [|done].
  injection Hrun as <-. simpl.
  assert (NoDup (path ++ [cur])) as Hndc.
  { replace (path ++ cur :: ext) with ((path ++ [cur]) ++ ext) in Hnd'
      by (by rewrite <-app_assoc).
    by apply NoDup_app in Hnd' as (? & _ & _). }
  assert (visited st0 = visited st) as Hv0 by (subst st0; by destruct (negb _)).
  assert (∀ s x s', x ∈ neighbours cur →
            visited s = list_to_set (path ++ [cur]) →
            engine fuel (fc_function x) (path ++ [cur]) (depth + 1) s = Some s' →
            extends (λ _, True) s s') as Hstep.
  { intros s x s' _ Hs Hb. eapply extends_mono; [|eapply trace_engine_sound; eauto].
    done. }
  assert (visited (visited_add cur st0) = list_to_set (path ++ [cur])) as Hva.
  { simpl. rewrite Hv0, Hvis. set_solver. }
  destruct ext as [|c ext].
  - simpl in Hex, Hd |- *. rewrite Z.add_0_r in *.
    assert (mkCallPath (orient (path ++ [cur])) depth ∈ paths st0) as Hrec.
    { subst st0. rewrite Hex. simpl. apply elem_of_app. right. left. }
    apply (extends_elem (λ _, True) (visited_add cur st0) s1); [|exact Hrec].
    eapply (for_each_rel _ (λ s, visited s = list_to_set (path ++ [cur])) (extends (λ _, True)));
      [apply extends_refl|apply extends_trans| |exact Hstep|exact Hva|exact Hloop].
    intros a b Ha [Hb _]. congruence.
  - destruct Hl as [Hc Hl].
    apply list_elem_of_fmap in Hc as (x & -> & Hx).
    destruct (for_each_elem _ (λ s, visited s = list_to_set (path ++ [cur]))
                (extends (λ _, True)) _ _ _ x
                (extends_refl _) (extends_trans _)
                ltac:(intros a b Ha [Hb _]; congruence) Hstep Hva Hloop Hx)
      as (s & s' & Hs & _ & Hb & Hrest).
    eapply extends_elem; [exact Hrest|].
    replace (path ++ cur :: fc_function x :: ext)
      with ((path ++ [cur]) ++ fc_function x :: ext) in * by (by rewrite <-app_assoc).
    replace (depth + Z.of_nat (length (fc_function x :: ext)))
      with (depth + 1 + Z.of_nat (length ext)) in * by (simpl length; lia).
    eapply IH; eauto.
Qed.
End trace_engine_facts.

(** ** [trace_callers] and [trace_callees] *)

Lemma trace_callers_recursive_engine self max_depth ef ed fuel cur path depth st :
  trace_callers_recursive self max_depth ef ed fuel cur path depth st =
  trace_engine (callers_of self) reverse
    (λ p, _should_exclude_path self p ef ed) max_depth fuel cur path depth st.
Proof.
  revert cur path depth st. induction fuel as [|fuel IH]; intros; simpl; [done|].
  erewrite for_each_ext; [done|]. intros; apply IH.
Qed.

Lemma trace_callees_recursive_engine self max_depth ef ed fuel cur path depth st :
  trace_callees_recursive self max_depth ef ed fuel cur path depth st =
  trace_engine (get_functions_called_by (cscope self)) id
    (λ p, _should_exclude_path self p ef ed) max_depth fuel cur path depth st.
Proof.
  revert cur path depth st. induction fuel as [|fuel IH]; intros; simpl; [done|].
  erewrite for_each_ext; [done|]. intros; apply IH.
Qed.

Lemma linked_is_chain neighbours a l :
  linked neighbours a l ↔ is_chain (λ f, fc_function <$> neighbours f) (a :: l).
Proof.
  revert a. induction l as [|b l IH]; intros a; simpl; [done|].
  by rewrite IH.
Qed.

Lemma trace_engine_top neighbours orient excluded max_depth root :
  ∃ st,
    trace_engine neighbours orient excluded max_depth (trace_fuel max_depth)
      root [] 0 (mkTraceState [] ∅) = Some st ∧
    ∀ p, p ∈ paths st ↔ traced neighbours orient excluded max_depth root p.
Proof.
  destruct (trace_engine_total neighbours orient excluded max_depth
              (trace_fuel max_depth) root [] 0 (mkTraceState [] ∅)) as [st Hst].
  { unfold trace_fuel. lia. }
  exists st. split; [done|]. intros p. split.
  - intros Hp.
    destruct (trace_engine_sound neighbours orient excluded max_depth
                (trace_fuel max_depth) root [] 0 (mkTraceState [] ∅) st
                (NoDup_nil_2) eq_refl Hst)
      as [_ (new & Hnew & Hall)].
    simpl in Hnew. subst new.
    rewrite Forall_forall in Hall. destruct (Hall p Hp) as (ext & -> & Hd & Hnd & Hl & Hex).
    exists (root :: ext). simpl in *. split_and!; auto.
    + f_equal. lia.
    + lia.
    + by apply linked_is_chain.
  - intros (chain & -> & Hhd & Hlen & Hnd & Hch & Hex).
    destruct chain as [|r ext]; [done|]. injection Hhd as ->.
    replace (Z.of_nat (length (root :: ext)) - 1) with (0 + Z.of_nat (length ext))
      by (simpl length; lia).
    apply (trace_engine_complete neighbours orient excluded max_depth
             (trace_fuel max_depth) root [] 0 (mkTraceState [] ∅) st ext);
      auto using NoDup_nil_2.
    + by apply linked_is_chain.
    + simpl length in Hlen. lia.
Qed.

(** [trace_callers] returns, and returns exactly the reversed caller chains
    from the target that stay within the bound, repeat no function and are
    not excluded. *)
Lemma trace_callers_spec self target max_depth ef ed :
  ∃ ps,
    trace_callers self target max_depth ef ed = Some ps ∧
    ∀ p, p ∈ ps ↔
         traced (callers_of self) reverse (λ p, _should_exclude_path self p ef ed)
                (resolve_max_depth self max_depth) target p.
Proof.
  destruct (trace_engine_top (callers_of self) reverse
              (λ p, _should_exclude_path self p ef ed)
              (resolve_max_depth self max_depth) target) as (st & Hst & Hps).
  exists (paths st). split; [|done].
  unfold trace_callers. cbv zeta. rewrite trace_callers_recursive_engine, Hst. done.
Qed.

Lemma trace_callees_spec self source max_depth ef ed :
  ∃ ps,
    trace_callees self source max_depth ef ed = Some ps ∧
    ∀ p, p ∈ ps ↔
         traced (get_functions_called_by (cscope self)) id
                (λ p, _should_exclude_path self p ef ed)
                (resolve_max_depth self max_depth) source p.
Proof.
  destruct (trace_engine_top (get_functions_called_by (cscope self)) id
              (λ p, _should_exclude_path self p ef ed)
              (resolve_max_depth self max_depth) source) as (st & Hst & Hps).
  exists (paths st). split; [|done].
  unfold trace_callees. cbv zeta. rewrite trace_callees_recursive_engine, Hst. done.
Qed.

(** ** [find_call_paths] *)

Lemma grows_refl {A} (Q : A → Prop) l : grows Q l l.
Proof. exists []. by rewrite app_nil_r. Qed.

Lemma grows_trans {A} (Q : A → Prop) a b c : grows Q a b → grows Q b c → grows Q a c.
Proof.
  intros (n1 & -> & H1) (n2 & -> & H2). exists (n1 ++ n2).
  rewrite <-app_assoc. split; [done|]. by apply Forall_app.
Qed.

Lemma grows_mono {A} (Q Q' : A → Prop) a b :
  (∀ p, Q p → Q' p) → grows Q a b → grows Q' a b.
Proof. intros HQ (n & -> & Hn). exists n. split; [done|]. eapply Forall_impl; eauto. Qed.

Lemma find_paths_total self max_depth fuel cur target path depth visited paths :
  (Z.to_nat (max_depth + 1 - depth) < fuel)%nat →
  is_Some (_find_paths_recursive self max_depth fuel cur target path depth visited paths).
Proof.
  revert cur path depth visited paths.
  induction fuel as [|fuel IH]; intros cur path depth visited paths Hf; [lia|].
  simpl. destruct (bool_decide (depth > max_depth)) eqn:Hd; [eauto|].
  apply bool_decide_eq_false in Hd.
  destruct (String.eqb cur target); [eauto|].
  destruct (bool_decide (cur ∈ visited)); [eauto|].
  apply for_each_total. intros s x _. apply IH. lia.
Qed.

Lemma found_from_step self max_depth target path cur depth c p :
  cur ≠ target →
  c ∈ callee_names self cur →
  found_from self max_depth target (path ++ [cur]) c (depth + 1) p →
  found_from self max_depth target path cur depth p.
Proof.
  intros Hne Hc (pre & -> & Hhd & Hnd & Hd & Hch).
  exists (cur :: pre). rewrite <-app_assoc in *. simpl in *.
  replace (depth + Z.of_nat (S (length pre))) with (depth + 1 + Z.of_nat (length pre)) by lia.
  split_and!; auto.
  destruct (pre ++ [target]) as [|x l] eqn:E; [done|].
  injection Hhd as ->. split; auto.
Qed.

Lemma find_paths_sound self max_depth fuel cur target path depth visited paths paths' :
  NoDup path → target ∉ path → visited = list_to_set path →
  _find_paths_recursive self max_depth fuel cur target path depth visited paths
    = Some paths' →
  grows (found_from self max_depth target path cur depth) paths paths'.
Proof.
  revert cur path depth visited paths paths'.
  induction fuel as [|fuel IH];
    intros cur path depth visited paths paths' Hnd Ht Hvis Hrun; [done|].
  simpl in Hrun.
  destruct (bool_decide (depth > max_depth)) eqn:Hd.
  { injection Hrun as <-. apply grows_refl. }
  apply bool_decide_eq_false in Hd.
  destruct (String.eqb cur target) eqn:Heq.
  { apply String.eqb_eq in Heq as ->. injection Hrun as <-.
    eexists [_]. split; [done|]. apply Forall_singleton.
    exists []. simpl. rewrite Z.add_0_r. split_and!; auto; try lia.
    apply NoDup_app. split_and!; [done| |apply NoDup_singleton].
    intros x Hx Hx'%list_elem_of_singleton. by subst x. }
  apply String.eqb_neq in Heq.
  destruct (bool_decide (cur ∈ visited)) eqn:Hin.
  { injection Hrun as <-. apply grows_refl. }
  apply bool_decide_eq_false in Hin.
  eapply (for_each_rel _ (λ _, True)); [apply grows_refl|apply grows_trans|done| |done|exact Hrun].
  intros s x s' Hx _ Hb.
  apply (grows_mono (found_from self max_depth target (path ++ [cur]) (fc_function x) (depth + 1))).
  { intros p. apply found_from_step; [done|]. by apply list_elem_of_fmap_2. }
  eapply IH; [| | |exact Hb].
  - apply NoDup_app. split_and!; [done| |apply NoDup_singleton].
    intros y Hy Hy'%list_elem_of_singleton. subst y. apply Hin. subst visited. set_solver.
  - rewrite elem_of_app, list_elem_of_singleton. intros [?|?]; [done|]. by subst.
  - subst visited. set_solver.
Qed.

(** [find_call_paths] returns, and every path it returns is a chain of
    callees from [from_function] to [to_function] within the bound, with no
    function twice. *)
Lemma find_call_paths_spec self from_function to_function max_depth :
  ∃ ps,
    find_call_paths self from_function to_function max_depth = Some ps ∧
    Forall (found_from self (resolve_max_depth self max_depth) to_function []
              from_function 0) ps.
Proof.
  unfold find_call_paths. cbv zeta.
  destruct (find_paths_total self (resolve_max_depth self max_depth)
              (trace_fuel (resolve_max_depth self max_depth))
              from_function to_function [] 0 ∅ []) as [ps Hps].
  { unfold trace_fuel. lia. }
  exists ps. split; [done|].
  apply find_paths_sound in Hps as (new & Hnew & Hall);
    [|apply NoDup_nil_2|apply not_elem_of_nil|done].
  simpl in Hnew. by subst.
Qed.

(** From a function to itself: the single path of that function, unless the
    bound is negative. *)
Lemma find_call_paths_same self f max_depth :
  find_call_paths self f f max_depth =
  Some (if bool_decide (0 > resolve_max_depth self max_depth) then []
        else [mkCallPath [f] 0]).
Proof.
  unfold find_call_paths, trace_fuel. cbv zeta. simpl.
  destruct (bool_decide (0 > resolve_max_depth self max_depth)); [done|].
  by rewrite String.eqb_refl.
Qed.

(** ** The unique-chain operations *)

Lemma stable_insert_perm {A} (lt : A → A → bool) x l :
  stable_insert lt x l ≡ₚ x :: l.
Proof.
  induction l as [|y l IH]; simpl; [done|].
  destruct (lt y x); [|done]. rewrite IH. apply Permutation_swap.
Qed.

Lemma stable_sort_perm {A} (lt : A → A → bool) l : stable_sort lt l ≡ₚ l.
Proof.
  induction l as [|x l IH]; simpl; [done|].
  rewrite stable_insert_perm. by rewrite IH.
Qed.

Lemma elem_of_stable_sort {A} (lt : A → A → bool) l x :
  x ∈ stable_sort lt l ↔ x ∈ l.
Proof. by rewrite stable_sort_perm. Qed.

(** Sorting with "longer first" yields a list in which every element is at
    least as long as all the elements after it. *)
Lemma stable_insert_descending {A} (key : A → nat) x l :
  StronglySorted (λ a b, (key b ≤ key a)%nat) l →
  StronglySorted (λ a b, (key b ≤ key a)%nat)
    (stable_insert (λ p q, (key q <? key p)%nat) x l).
Proof.
  induction 1 as [|y l Hl IH Hy]; simpl.
  - repeat constructor.
  - destruct (key x <? key y)%nat eqn:E.
    + apply Nat.ltb_lt in E. constructor; [done|].
      rewrite stable_insert_perm. constructor; [lia|done].
    + apply Nat.ltb_ge in E. constructor; [by constructor|].
      constructor; [done|]. eapply Forall_impl; [exact Hy|]. simpl. intros; lia.
Qed.

Lemma stable_sort_descending {A} (key : A → nat) l :
  StronglySorted (λ a b, (key b ≤ key a)%nat)
    (stable_sort (λ p q, (key q <? key p)%nat) l).
Proof.
  induction l as [|x l IH]; simpl; [constructor|].
  by apply stable_insert_descending.
Qed.

Lemma elem_of_dict_set {V} k (v : V) d x :
  x ∈ (snd <$> dict_set k v d) → x = v ∨ x ∈ (snd <$> d).
Proof.
  induction d as [|[k' v'] d IH]; simpl.
  - rewrite list_elem_of_singleton. auto.
  - destruct (String.eqb k' k); simpl; rewrite !elem_of_cons; naive_solver.
Qed.

Lemma elem_of_group_paths all_paths p :
  p ∈ (snd <$> group_paths all_paths) → p ∈ all_paths.
Proof.
  unfold group_paths.
  assert (∀ acc, p ∈ (snd <$> fold_left
             (λ path_groups path,
                let path_str := Py.join " -> " (functions path) in
                match dict_get path_str path_groups with
                | None => dict_set path_str path path_groups
                | Some old =>
                    if (length (functions old) <? length (functions path))%nat
                    then dict_set path_str path path_groups
                    else path_groups
                end) all_paths acc) →
          p ∈ (snd <$> acc) ∨ p ∈ all_paths) as H.
  { induction all_paths as [|x l IH]; intros acc; simpl; [auto|].
    intros [Hp|Hp]%IH; [|right; by right].
    destruct (dict_get _ acc) as [old|];
      [destruct (_ <? _)%nat|]; auto;
      apply elem_of_dict_set in Hp as [->|?]; auto; right; left. }
  intros [Hp|Hp]%H; [|done]. simpl in Hp. by apply elem_of_nil in Hp.
Qed.

Section unique_chains.
Variable slice : nat → list string → list string.
Variable sub : list string → list string → Prop.
Hypothesis sub_slice :
  ∀ s l, s ≠ [] → sub s l → (length s < length l)%nat ∧ slice (length s) l = s.

Local Abbreviation irredundant := (irredundant_for sub).

Lemma not_subset_of_kept path unique_paths q :
  path ≠ [] →
  is_subset_of_kept slice path unique_paths = false →
  q ∈ unique_paths → ¬ sub path (functions q).
Proof.
  intros Hne Hk Hq Hsub. apply sub_slice in Hsub as [Hlen Hsl]; [|done].
  apply not_true_iff_false in Hk. apply Hk.
  apply existsb_exists. exists q. split; [by apply list_elem_of_In|].
  apply andb_true_iff. split; [by apply Nat.ltb_lt|by apply bool_decide_eq_true].
Qed.

Lemma keep_unique_loop todo acc :
  StronglySorted (λ a b, (length (functions b) ≤ length (functions a))%nat) todo →
  (∀ a t, a ∈ acc → t ∈ todo → (length (functions t) ≤ length (functions a))%nat) →
  (∀ t, t ∈ todo → functions t ≠ []) →
  irredundant acc →
  irredundant (fold_left (keep_unique slice) todo acc) ∧
  ∀ p, p ∈ fold_left (keep_unique slice) todo acc → p ∈ acc ∨ p ∈ todo.
Proof.
  revert acc. induction todo as [|x todo IH]; intros acc Hs Hlen Hne Hacc; simpl.
  { split; [done|auto]. }
  apply StronglySorted_inv in Hs as [Hs Hx]. rewrite Forall_forall in Hx.
  assert (∀ t, t ∈ todo → functions t ≠ []) as Hne' by (intros; apply Hne; by right).
  unfold keep_unique at 2 4.
  destruct (is_subset_of_kept slice (functions x) acc) eqn:Hk.
  - destruct (IH acc) as [H1 H2]; auto.
    { intros a t Ha Ht. apply Hlen; [done|by right]. }
    split; [done|]. intros p [?|?]%H2; [by left|right; by right].
  - destruct (IH (acc ++ [x])) as [H1 H2]; auto.
    + intros a t [Ha|Ha%list_elem_of_singleton]%elem_of_app Ht.
      * apply Hlen; [done|by right].
      * subst a. by apply Hx.
    + intros p q [Hp|Hp%list_elem_of_singleton]%elem_of_app
                 [Hq|Hq%list_elem_of_singleton]%elem_of_app.
      * by apply Hacc.
      * subst q. intros Hsub. apply sub_slice in Hsub as [Hl _].
        -- specialize (Hlen p x Hp ltac:(left)). lia.
        -- intros E. specialize (Hlen p x Hp ltac:(left)). rewrite E in Hlen.
           simpl in Hlen. apply (Hne x); [left|].
           destruct (functions x); [done|simpl in Hlen; lia].
      * subst p. eapply not_subset_of_kept; eauto. apply Hne. left.
      * subst p q. intros Hsub. apply sub_slice in Hsub as [Hl _]; [lia|].
        apply Hne. left.
    + split; [done|].
      intros p [[?|Hp%list_elem_of_singleton]%elem_of_app|?]%H2;
        [by left|subst p; right; left|right; by right].
Qed.

Lemma filter_unique_subset all_paths p :
  p ∈ filter_unique slice all_paths → p ∈ all_paths.
Proof.
  unfold filter_unique. cbv zeta. rewrite elem_of_stable_sort.
  intros Hp.
  assert (∀ todo acc, p ∈ fold_left (keep_unique slice) todo acc → p ∈ acc ∨ p ∈ todo) as H.
  { induction todo as [|x todo IH]; intros acc; simpl; [auto|].
    intros [Hq|Hq]%IH; [|right; by right].
    unfold keep_unique in Hq. destruct (is_subset_of_kept _ _ _); [by left|].
    apply elem_of_app in Hq as [?|Hq%list_elem_of_singleton]; [by left|subst p; right; left]. }
  apply H in Hp as [Hp|Hp]; [by apply elem_of_nil in Hp|].
  apply elem_of_stable_sort in Hp. by apply elem_of_group_paths.
Qed.

Lemma filter_unique_irredundant all_paths :
  (∀ p, p ∈ all_paths → functions p ≠ []) →
  irredundant (filter_unique slice all_paths).
Proof.
  intros Hne p q. unfold filter_unique. cbv zeta. rewrite !elem_of_stable_sort.
  set (sorted_paths := stable_sort _ (snd <$> group_paths all_paths)).
  destruct (keep_unique_loop sorted_paths []) as [H _].
  - apply (stable_sort_descending (λ p, length (functions p))).
  - intros a t Ha. by apply elem_of_nil in Ha.
  - intros t Ht. apply Hne. apply elem_of_stable_sort in Ht.
    by apply elem_of_group_paths.
  - intros a b Ha. by apply elem_of_nil in Ha.
  - apply H.
Qed.
End unique_chains.

Lemma proper_suffix_slice_last (s l : list string) :
  s ≠ [] → proper_suffix s l →
  (length s < length l)%nat ∧ slice_last (length s) l = s.
Proof.
  intros Hne (k & Hk & ->). rewrite length_app. split.
  - destruct k; [done|simpl; lia].
  - unfold slice_last. destruct (length s =? 0)%nat eqn:E.
    { apply Nat.eqb_eq in E. by destruct s. }
    replace (length (k ++ s) - length s)%nat with (length k)
      by (rewrite length_app; lia).
    by rewrite drop_app_length.
Qed.

Lemma proper_prefix_slice_first (s l : list string) :
  s ≠ [] → proper_prefix s l →
  (length s < length l)%nat ∧ slice_first (length s) l = s.
Proof.
  intros _ (k & Hk & ->). rewrite length_app. split.
  - destruct k; [done|simpl; lia].
  - unfold slice_first. by rewrite take_app_length.
Qed.

Lemma traced_nonempty neighbours orient excluded max_depth root p :
  (∀ l, length (orient l) = length l) →
  traced neighbours orient excluded max_depth root p → functions p ≠ [].
Proof.
  intros Hor (chain & -> & Hhd & _). simpl. intros E.
  apply (f_equal length) in E. rewrite Hor in E. by destruct chain.
Qed.

(** ** [get_function_depth_map] *)

Lemma depth_map_loop_discard self fuel function depth queue depth_map d :
  depth_map !! function = Some d → d ≤ depth →
  depth_map_loop self (S fuel) ((function, depth) :: queue) depth_map =
  depth_map_loop self fuel queue depth_map.
Proof. intros Hd Hle. simpl. rewrite Hd. by rewrite bool_decide_eq_true_2. Qed.

Lemma depth_map_loop_record self fuel function depth queue depth_map :
  (∀ d, depth_map !! function = Some d → depth < d) →
  depth_map_loop self (S fuel) ((function, depth) :: queue) depth_map =
  depth_map_loop self fuel
    (queue ++ ((λ callee, (fc_function callee, depth + 1)) <$>
               get_functions_called_by (cscope self) function))
    (<[function := depth]> depth_map).
Proof.
  intros Hd. simpl. destruct (depth_map !! function) as [d|] eqn:E; [|done].
  rewrite bool_decide_eq_false_2; [done|]. specialize (Hd d eq_refl). lia.
Qed.

Lemma depth_map_loop_cases self fuel function depth queue depth_map :
  (∃ d, depth_map !! function = Some d ∧ d ≤ depth ∧
        depth_map_loop self (S fuel) ((function, depth) :: queue) depth_map =
        depth_map_loop self fuel queue depth_map) ∨
  ((∀ d, depth_map !! function = Some d → depth < d) ∧
   depth_map_loop self (S fuel) ((function, depth) :: queue) depth_map =
   depth_map_loop self fuel
     (queue ++ ((λ callee, (fc_function callee, depth + 1)) <$>
                get_functions_called_by (cscope self) function))
     (<[function := depth]> depth_map)).
Proof.
  destruct (depth_map !! function) as [d|] eqn:E; [destruct (decide (d ≤ depth))|].
  - left. exists d. split_and!; [done|done|by eapply depth_map_loop_discard].
  - right. split; [intros d0 [= <-]; lia|].
    apply depth_map_loop_record. intros d0 E'. rewrite E in E'. injection E' as <-. lia.
  - right. split; [by intros d0 [=]|].
    apply depth_map_loop_record. intros d0 E'. by rewrite E in E'.
Qed.

Lemma depth_map_loop_more_fuel self fuel fuel' queue depth_map r :
  depth_map_loop self fuel queue depth_map = Some r → (fuel ≤ fuel')%nat →
  depth_map_loop self fuel' queue depth_map = Some r.
Proof.
  revert fuel' queue depth_map.
  induction fuel as [|fuel IH]; intros fuel' queue depth_map Hrun Hle.
  - destruct queue as [|[f d] q]; [|done]. by destruct fuel'.
  - destruct queue as [|[f d] q]; [by destruct fuel'|].
    destruct fuel' as [|fuel']; [lia|].
    destruct (depth_map_loop_cases self fuel f d q depth_map) as [(d0 & E & Hd & Heq)|[Hd Heq]];
      rewrite Heq in Hrun.
    + erewrite depth_map_loop_discard; eauto. apply IH; [done|lia].
    + rewrite depth_map_loop_record; [|done]. apply IH; [done|lia].
Qed.

Lemma elem_of_enqueued self f d g k :
  (g, k) ∈ ((λ callee, (fc_function callee, d + 1)) <$>
            get_functions_called_by (cscope self) f) ↔
  g ∈ callee_names self f ∧ k = d + 1.
Proof.
  unfold callee_names. rewrite !list_elem_of_fmap. split.
  - intros (c & [= -> ->] & Hc). eauto.
  - intros [(c & -> & Hc) ->]. eauto.
Qed.

(** Partial correctness: the two invariants of the loop. *)
Lemma depth_map_loop_inv self roots fuel queue depth_map r :
  all_reached self roots queue depth_map →
  closure_inv self roots queue depth_map →
  depth_map_loop self fuel queue depth_map = Some r →
  all_reached self roots [] r ∧ closure_inv self roots [] r.
Proof.
  revert queue depth_map.
  induction fuel as [|fuel IH]; intros queue depth_map Hreach Hclos Hrun.
  { destruct queue as [|[f d] q]; [|done]. simpl in Hrun. by injection Hrun as <-. }
  destruct queue as [|[f d] q].
  { simpl in Hrun. by injection Hrun as <-. }
  destruct Hreach as [Hq Hm]. destruct Hclos as [Hroots Hcallees].
  destruct (depth_map_loop_cases self fuel f d q depth_map)
    as [(d0 & E & Hd & Heq)|[Hd Heq]]; rewrite Heq in Hrun; clear Heq.
  - (* the proposal is discarded *)
    assert (∀ g k, covered ((f, d) :: q) depth_map g k → covered q depth_map g k) as Hcov.
    { intros g k (k' & Hk & [Hin|Hin]).
      - apply elem_of_cons in Hin as [[= -> ->]|Hin].
        + exists d0. split; [lia|by right].
        + exists k'. split; [done|by left].
      - exists k'. split; [done|by right]. }
    eapply IH; [| |exact Hrun].
    + split; [|done]. intros g k Hg. apply Hq. by right.
    + split; [intros r0 Hr; by apply Hcov, Hroots|].
      intros f' d' g E' Hg. by eapply Hcov, Hcallees.
  - (* the depth is recorded and the callees are queued *)
    set (enq := (λ callee, (fc_function callee, d + 1)) <$>
                get_functions_called_by (cscope self) f) in *.
    assert (walk self roots f d) as Hf by (apply Hq; left).
    assert (∀ g k, covered ((f, d) :: q) depth_map g k →
                   covered (q ++ enq) (<[f:=d]> depth_map) g k) as Hcov.
    { intros g k (k' & Hk & [Hin|Hin]).
      - apply elem_of_cons in Hin as [[= -> ->]|Hin].
        + exists d. split; [done|right; apply lookup_insert_eq].
        + exists k'. split; [done|]. left. apply elem_of_app. by left.
      - destruct (decide (f = g)) as [->|Hne].
        + exists d. split; [specialize (Hd _ Hin); lia|]. right. apply lookup_insert_eq.
        + exists k'. split; [done|]. right. by rewrite lookup_insert_ne. }
    eapply IH; [| |exact Hrun].
    + split.
      * intros g k [Hg|Hg]%elem_of_app; [apply Hq; by right|].
        apply elem_of_enqueued in Hg as [Hg ->]. by eapply walk_step.
      * intros g k. destruct (decide (f = g)) as [->|Hne].
        -- rewrite lookup_insert_eq. by intros [= <-].
        -- rewrite lookup_insert_ne by done. apply Hm.
    + split; [intros r0 Hr; by apply Hcov, Hroots|].
      intros f' d' g E' Hg. destruct (decide (f = f')) as [->|Hne].
      * rewrite lookup_insert_eq in E'. injection E' as <-.
        exists (d + 1). split; [lia|]. left. apply elem_of_app. right.
        by apply elem_of_enqueued.
      * rewrite lookup_insert_ne in E' by done. by eapply Hcov, Hcallees.
Qed.

(** With both invariants and an empty queue, the map holds exactly the
    functions that can be reached, each with its least distance. *)
Lemma closure_covers_walks self roots depth_map f n :
  closure_inv self roots [] depth_map →
  walk self roots f n → ∃ k, k ≤ n ∧ depth_map !! f = Some k.
Proof.
  intros [Hroots Hcallees]. induction 1 as [r Hr|f g n Hw IH Hg].
  - destruct (Hroots r Hr) as (k & Hk & [Hin|E]); [by apply elem_of_nil in Hin|eauto].
  - destruct IH as (k & Hk & E).
    destruct (Hcallees f k g E Hg) as (k' & Hk' & [Hin|E']);
      [by apply elem_of_nil in Hin|]. exists k'. split; [lia|done].
Qed.

Lemma depth_map_least self roots depth_map f d :
  all_reached self roots [] depth_map →
  closure_inv self roots [] depth_map →
  depth_map !! f = Some d ↔
  walk self roots f d ∧ ∀ n, walk self roots f n → d ≤ n.
Proof.
  intros [_ Hm] Hclos. split.
  - intros E. split; [by apply Hm|]. intros n Hn.
    destruct (closure_covers_walks _ _ _ _ _ Hclos Hn) as (k & Hk & E').
    rewrite E in E'. injection E' as <-. done.
  - intros [Hw Hmin].
    destruct (closure_covers_walks _ _ _ _ _ Hclos Hw) as (k & Hk & E).
    specialize (Hmin k (Hm _ _ E)). by replace d with k by lia.
Qed.

(** Termination on a finite call graph. *)
Lemma level_inv_head f d rest depth_map d0 :
  level_inv ((f, d) :: rest) depth_map → depth_map !! f = Some d0 → d0 ≤ d.
Proof. intros [_ Hm] E. by apply (Hm f d0). Qed.

Lemma level_inv_next f d rest new depth_map depth_map' :
  level_inv ((f, d) :: rest) depth_map →
  Forall (λ x, x.2 = d + 1) new →
  map_Forall (λ _ v, v ≤ d) depth_map' →
  level_inv (rest ++ new) depth_map'.
Proof.
  intros [(q1 & q2 & -> & H1 & H2) Hm] Hnew Hm'.
  destruct q1 as [|[g e] q1].
  - simpl. assert (Forall (λ x, x.2 = d + 1) (q2 ++ new)) as Hall by by apply Forall_app.
    destruct (q2 ++ new) as [|[g e] r]; [done|].
    apply Forall_cons in Hall as [He Hr]. simpl in He. subst e. split.
    + exists r, []. rewrite app_nil_r. split_and!; [done| |constructor].
      eapply Forall_impl; [exact Hr|]. simpl. intros; lia.
    + eapply map_Forall_impl; [exact Hm'|]. simpl. intros; lia.
  - apply Forall_cons in H1 as [He H1]. simpl in He. subst e. simpl. split; [|done].
    exists q1, (q2 ++ new). rewrite <-app_assoc. split_and!; [done..|].
    by apply Forall_app.
Qed.

Lemma max_out_bound self universe f :
  f ∈ universe →
  (length (get_functions_called_by (cscope self) f) ≤ max_out self universe)%nat.
Proof.
  unfold max_out. induction universe as [|x l IH]; [by intros ?%elem_of_nil|].
  intros [->|Hf]%elem_of_cons; rewrite fmap_cons; cbn [foldr]; [lia|].
  specialize (IH Hf). lia.
Qed.

Section depth_map_termination.
Variable self : CallTracer.
Variable U : gset string.
Variable C : nat.
Hypothesis out_degree :
  ∀ f, f ∈ U → (length (get_functions_called_by (cscope self) f) ≤ C)%nat.
Hypothesis closed : ∀ f g, f ∈ U → g ∈ callee_names self f → g ∈ U.

Lemma depth_map_loop_total fuel queue depth_map :
  level_inv queue depth_map → within U queue depth_map →
  (length queue + size (U ∖ dom depth_map) * S C < fuel)%nat →
  is_Some (depth_map_loop self fuel queue depth_map).
Proof.
  revert queue depth_map.
  induction fuel as [|fuel IH]; intros queue depth_map Hlvl [HqU HmU] Hf; [lia|].
  destruct queue as [|[f d] q]; [simpl; eauto|].
  destruct (depth_map_loop_cases self fuel f d q depth_map)
    as [(d0 & E & Hd & ->)|[Hd ->]].
  - apply IH.
    + replace q with (q ++ []) by apply app_nil_r.
      eapply level_inv_next; [exact Hlvl|constructor|apply Hlvl].
    + split; [|done]. intros g k Hg. eapply HqU. by right.
    + simpl in Hf. lia.
  - assert (depth_map !! f = None) as Hnone.
    { destruct (depth_map !! f) as [d0|] eqn:E; [|done].
      pose proof (level_inv_head _ _ _ _ _ Hlvl E). specialize (Hd _ eq_refl). lia. }
    assert (f ∈ U) as HfU by (eapply HqU; left).
    assert (size (U ∖ dom (<[f:=d]> depth_map)) < size (U ∖ dom depth_map))%nat as Hsz.
    { apply subset_size. rewrite dom_insert_L.
      apply not_elem_of_dom in Hnone. set_solver. }
    apply IH.
    + eapply level_inv_next; [exact Hlvl| |].
      * apply Forall_fmap, Forall_forall. by intros.
      * apply map_Forall_insert_2; [done|apply Hlvl].
    + split.
      * intros g k [Hg|Hg]%elem_of_app; [eapply HqU; by right|].
        apply elem_of_enqueued in Hg as [Hg _]. by eapply closed.
      * rewrite dom_insert_L. set_solver.
    + rewrite length_app, length_fmap. specialize (out_degree f HfU).
      simpl in Hf. nia.
Qed.
End depth_map_termination.

Lemma closed_universe_spec self roots universe :
  closed_universe self roots universe = true →
  (∀ r, r ∈ roots → r ∈ universe) ∧
  (∀ f g, f ∈ universe → g ∈ callee_names self f → g ∈ universe).
Proof.
  unfold closed_universe. rewrite andb_true_iff, !forallb_forall. intros [H1 H2]. split.
  - intros r Hr%list_elem_of_In. specialize (H1 r Hr).
    by apply bool_decide_eq_true in H1.
  - intros f g Hf%list_elem_of_In Hg%list_elem_of_In.
    specialize (H2 f Hf). rewrite forallb_forall in H2. specialize (H2 g Hg).
    by apply bool_decide_eq_true in H2.
Qed.

(** [get_function_depth_map] on a finite call graph: it returns, and the
    map holds the least number of callee edges from a root. *)
Lemma get_function_depth_map_spec self roots universe :
  closed_universe self roots universe = true →
  ∃ depth_map,
    (∀ fuel, (depth_map_fuel self roots universe ≤ fuel)%nat →
             get_function_depth_map self fuel roots = Some depth_map) ∧
    ∀ f d, depth_map !! f = Some d ↔
           walk self roots f d ∧ ∀ n, walk self roots f n → d ≤ n.
Proof.
  intros [Hroots Hclosed]%closed_universe_spec.
  set (init := (λ func : string, (func, 0)) <$> roots).
  assert (∀ f d, (f, d) ∈ init → f ∈ roots ∧ d = 0) as Hinit.
  { intros f d (r & [= -> ->] & Hr)%list_elem_of_fmap. done. }
  destruct (depth_map_loop_total self (list_to_set universe) (max_out self universe))
    with (fuel := depth_map_fuel self roots universe) (queue := init)
         (depth_map := (∅ : gmap string Z)) as [dm Hdm].
  - intros f Hf. apply max_out_bound. set_solver.
  - intros f g Hf Hg. apply elem_of_list_to_set. eapply Hclosed; [|done]. set_solver.
  - destruct init as [|[f d] rest] eqn:E; [done|]. split; [|apply map_Forall_empty].
    exists rest, []. rewrite app_nil_r. split_and!; [done| |constructor].
    apply Forall_forall. intros [g k] Hg. simpl.
    destruct (Hinit f d) as [_ ->]; [left|]. destruct (Hinit g k) as [_ ->]; [by right|done].
  - split; [|set_solver]. intros f d [Hf _]%Hinit. apply elem_of_list_to_set. auto.
  - unfold depth_map_fuel. subst init. rewrite length_fmap, dom_empty_L.
    replace (list_to_set universe ∖ ∅ : gset string) with (list_to_set universe : gset string)
      by set_solver. lia.
  - exists dm. split.
    + intros fuel Hfuel. by eapply depth_map_loop_more_fuel.
    + intros f d.
      destruct (depth_map_loop_inv self roots (depth_map_fuel self roots universe)
                  init ∅ dm) as [Hr Hc]; [| |exact Hdm|].
      * split; [|by intros ? ? ?%lookup_empty_Some].
        intros g k [Hg ->]%Hinit. by constructor.
      * split; [|by intros ? ? ? ?%lookup_empty_Some].
        intros r Hr. exists 0. split; [done|]. left.
        apply list_elem_of_fmap. eauto.
      * by apply depth_map_least.
Qed.

(** ** [_analyze_path_locks] *)

Lemma track_operation_simulate target_locks ts op :
  let ts' := track_operation target_locks ts op in
  (held ts', protected_by ts') =
    simulate target_locks [op] (held ts, protected_by ts) ∧
  (function_acquires ts ⊆ protected_by ts →
   function_acquires ts' ⊆ protected_by ts').
Proof.
  unfold track_operation, simulate, is_acquire, is_release. simpl.
  destruct (matches_target target_locks op); simpl; [|done].
  destruct (String.eqb (operation op) "acquire"); simpl; [split; [done|set_solver]|].
  destruct (String.eqb (operation op) "release"); simpl; done.
Qed.

Lemma simulate_app target_locks ops1 ops2 hp :
  simulate target_locks (ops1 ++ ops2) hp =
  simulate target_locks ops2 (simulate target_locks ops1 hp).
Proof. apply fold_left_app. Qed.

Lemma fold_track_simulate target_locks ops ts :
  let ts' := fold_left (track_operation target_locks) ops ts in
  (held ts', protected_by ts') =
    simulate target_locks ops (held ts, protected_by ts) ∧
  (function_acquires ts ⊆ protected_by ts →
   function_acquires ts' ⊆ protected_by ts').
Proof.
  revert ts. induction ops as [|op ops IH]; intros ts; simpl; [done|].
  destruct (track_operation_simulate target_locks ts op) as [H1 H2].
  destruct (IH (track_operation target_locks ts op)) as [H3 H4].
  split; [|auto]. rewrite H3, H1. done.
Qed.

(** One function of the path: the complete-lock-section pass adds nothing
    to the protection evidence that the acquire did not add already. *)
Lemma analyze_function_simulate self call_path target_locks st i function :
  let st' := analyze_function self call_path target_locks st i function in
  (ps_held_locks st', ps_protected_by_locks st') =
    simulate target_locks (operations_for_state self call_path i function)
      (ps_held_locks st, ps_protected_by_locks st) ∧
  ps_all_operations st' =
    ps_all_operations st ++ find_lock_operations self function.
Proof.
  unfold analyze_function. cbv zeta. simpl. split; [|done].
  destruct (fold_track_simulate target_locks
              (operations_for_state self call_path i function)
              (mkTrack (ps_held_locks st) ∅ ∅ (ps_protected_by_locks st)))
    as [H1 H2].
  simpl in H1, H2. rewrite <-H1. f_equal.
  specialize (H2 ltac:(set_solver)). set_solver.
Qed.

Lemma walk_path_app self call_path target_locks i fs1 fs2 st :
  walk_path self call_path target_locks i (fs1 ++ fs2) st =
  walk_path self call_path target_locks (i + length fs1) fs2
    (walk_path self call_path target_locks i fs1 st).
Proof.
  revert i st. induction fs1 as [|f fs1 IH]; intros i st; simpl.
  - by rewrite Nat.add_0_r.
  - rewrite IH. f_equal. lia.
Qed.

(** Before the last path function, every operation takes part. *)
Lemma walk_path_before self call_path target_locks i fs st :
  (i + length fs < length (path_functions call_path))%nat →
  let st' := walk_path self call_path target_locks i fs st in
  (ps_held_locks st', ps_protected_by_locks st') =
    simulate target_locks (flat_map (find_lock_operations self) fs)
      (ps_held_locks st, ps_protected_by_locks st) ∧
  ps_all_operations st' =
    ps_all_operations st ++ flat_map (find_lock_operations self) fs.
Proof.
  revert i st. induction fs as [|f fs IH]; intros i st Hi; simpl.
  { by rewrite app_nil_r. }
  simpl in Hi.
  destruct (analyze_function_simulate self call_path target_locks st i f) as [H1 H2].
  destruct (IH (S i) (analyze_function self call_path target_locks st i f)
              ltac:(lia)) as [H3 H4].
  split.
  - rewrite H3, H1, simulate_app. do 2 f_equal.
    unfold operations_for_state. rewrite bool_decide_eq_false_2; [done|lia].
  - rewrite H4, H2. by rewrite <-app_assoc.
Qed.

Lemma path_functions_snoc before caller target d :
  path_functions (mkCallPath (before ++ [caller; target]) d) = before ++ [caller].
Proof.
  unfold path_functions. simpl.
  replace (before ++ [caller; target]) with ((before ++ [caller]) ++ [target])
    by (by rewrite <-app_assoc).
  rewrite length_app, removelast_last. simpl.
  destruct (1 <? _)%nat eqn:E; [done|].
  apply Nat.ltb_ge in E. rewrite length_app in E. simpl in E. lia.
Qed.

Lemma last_function_snoc before caller target d :
  last_function (mkCallPath (before ++ [caller; target]) d) = target.
Proof.
  unfold last_function. simpl.
  replace (before ++ [caller; target]) with ((before ++ [caller]) ++ [target])
    by (by rewrite <-app_assoc).
  by rewrite last_snoc.
Qed.

(** The walk tracks [tracked_operations] and displays all the operations of
    the path functions. *)
Lemma walk_result_tracked self call_path target_locks :
  let st := walk_result self call_path target_locks in
  (ps_held_locks st, ps_protected_by_locks st) =
    simulate target_locks (tracked_operations self call_path) (∅, ∅) ∧
  ps_all_operations st =
    flat_map (find_lock_operations self) (path_functions call_path).
Proof.
  unfold walk_result, tracked_operations.
  destruct (path_functions call_path) as [|caller before _] eqn:E using rev_ind.
  { done. }
  rewrite reverse_app. simpl. rewrite reverse_involutive.
  rewrite walk_path_app. cbn [walk_path]. rewrite Nat.add_0_l.
  destruct (walk_path_before self call_path target_locks 0 before (mkPathState ∅ [] ∅))
    as [H1 H2].
  { rewrite E, length_app. simpl. lia. }
  simpl in H1, H2.
  destruct (analyze_function_simulate self call_path target_locks
              (walk_path self call_path target_locks 0 before (mkPathState ∅ [] ∅))
              (length before) caller) as [H3 H4].
  split.
  - rewrite H3, H1, simulate_app. do 2 f_equal.
    unfold operations_for_state. rewrite bool_decide_eq_true_2; [done|].
    rewrite E, length_app. simpl. lia.
  - rewrite H4, H2, flat_map_app. simpl. by rewrite app_nil_r.
Qed.

Lemma analyze_path_locks_held_after self call_path target_locks :
  held_locks (_analyze_path_locks self call_path target_locks) =
  held_after target_locks (tracked_operations self call_path).
Proof.
  unfold _analyze_path_locks, held_after. cbv zeta. simpl.
  destruct (walk_result_tracked self call_path target_locks) as [<- _]. done.
Qed.

Lemma tracked_operations_snoc self before caller target d :
  tracked_operations self (mkCallPath (before ++ [caller; target]) d) =
  flat_map (find_lock_operations self) before ++
  _filter_operations_before_call self caller target (find_lock_operations self caller).
Proof.
  unfold tracked_operations.
  rewrite path_functions_snoc, last_function_snoc, reverse_app. simpl.
  by rewrite reverse_involutive.
Qed.

Lemma target_call_line_None self caller target :
  target_call_line self caller target = None ↔
  ∀ call, call ∈ get_functions_called_by (la_cscope self) caller →
          fc_function call ≠ target.
Proof.
  unfold target_call_line.
  destruct (find _ _) as [c|] eqn:E; simpl.
  - split; [done|]. intros H. apply find_some in E as [Hc Heq].
    apply String.eqb_eq in Heq. by apply list_elem_of_In, H in Hc.
  - split; [|done]. intros _ call Hcall%list_elem_of_In Heq.
    eapply find_none in E; [|exact Hcall]. simpl in E.
    apply String.eqb_neq in E. done.
Qed.

(** *** The two sets of the simulation *)

Lemma simulate_snoc target_locks ops op hp :
  simulate target_locks (ops ++ [op]) hp =
  simulate target_locks [op] (simulate target_locks ops hp).
Proof. apply simulate_app. Qed.

Lemma acquire_not_release target_locks op :
  is_acquire target_locks op = true → is_release target_locks op = false.
Proof.
  unfold is_acquire, is_release. intros [_ ->]%andb_true_iff.
  by rewrite andb_false_r.
Qed.

Lemma still_held_snoc target_locks ops op l :
  still_held target_locks (ops ++ [op]) l ↔
  (is_acquire target_locks op = true ∧ lock_name op = l) ∨
  (still_held target_locks ops l ∧
   ¬ (is_release target_locks op = true ∧ lock_name op = l)).
Proof.
  split.
  - intros (ops1 & a & ops2 & Heq & Ha & Hl & Hrel).
    destruct ops2 as [|x ops2 _] using rev_ind.
    + apply (app_inj_tail ops ops1 op a) in Heq as [-> ->]. by left.
    + rewrite app_comm_cons, app_assoc in Heq.
      apply app_inj_tail in Heq as [-> ->]. right. split.
      * exists ops1, a, ops2. split_and!; auto.
        intros r Hr. apply Hrel. apply elem_of_app. by left.
      * intros [Hx Hxl]. eapply Hrel; [|exact Hx|exact Hxl].
        apply elem_of_app. right. left.
  - intros [[Ha Hl]|[(ops1 & a & ops2 & -> & Ha & Hl & Hrel) Hop]].
    + exists ops, op, []. split_and!; auto. by intros r ?%elem_of_nil.
    + exists ops1, a, (ops2 ++ [op]). rewrite <-app_assoc. split_and!; auto.
      intros r [Hr|Hr%list_elem_of_singleton]%elem_of_app Hr' Hrl; [by eapply Hrel|].
      subst r. auto.
Qed.

Lemma acquired_snoc target_locks ops op l :
  acquired target_locks (ops ++ [op]) l ↔
  acquired target_locks ops l ∨
  (is_acquire target_locks op = true ∧ lock_name op = l).
Proof.
  unfold acquired. split.
  - intros (a & [Ha|Ha%list_elem_of_singleton]%elem_of_app & H1 & H2); [left; eauto|].
    subst a. by right.
  - intros [(a & Ha & H1 & H2)|[H1 H2]].
    + exists a. split_and!; auto. apply elem_of_app. by left.
    + exists op. split_and!; auto. apply elem_of_app. right. left.
Qed.

(** The held set holds the locks acquired and not released afterwards; the
    protection evidence holds every lock acquired. *)
Lemma simulate_sets target_locks ops l :
  (l ∈ (simulate target_locks ops (∅, ∅)).1 ↔ still_held target_locks ops l) ∧
  (l ∈ (simulate target_locks ops (∅, ∅)).2 ↔ acquired target_locks ops l).
Proof.
  induction ops as [|op ops [IH1 IH2]] using rev_ind.
  - simpl. split; split.
    + by intros ?%elem_of_empty.
    + intros (ops1 & a & ops2 & Heq & _). by destruct ops1.
    + by intros ?%elem_of_empty.
    + intros (a & Ha & _). by apply elem_of_nil in Ha.
  - rewrite simulate_snoc, still_held_snoc, acquired_snoc.
    unfold simulate at 1 3. simpl.
    destruct (is_acquire target_locks op) eqn:Ha; simpl.
    + rewrite (acquire_not_release _ _ Ha).
      rewrite !elem_of_union, !elem_of_singleton, IH1, IH2. naive_solver.
    + destruct (is_release target_locks op) eqn:Hr; simpl.
      * rewrite elem_of_difference, elem_of_singleton, IH1, IH2. naive_solver.
      * rewrite IH1, IH2. naive_solver.
Qed.

(** ** [_should_exclude_path] *)

Lemma startswith_spec p s : Py.startswith p s = true ↔ ∃ b, s = p +:+ b.
Proof.
  revert s. induction p as [|a p IH]; intros s; simpl.
  - split; [eauto|done].
  - destruct s as [|c s].
    + split; [done|]. by intros (b & ?).
    + destruct (Ascii.eqb_spec a c) as [->|Hne].
      * rewrite IH. split; intros (b & Hb); exists b; [by rewrite Hb|by injection Hb].
      * split; [done|]. intros (b & Hb). injection Hb as -> _. done.
Qed.

Lemma contains_spec p s : Py.contains p s = true ↔ substring p s.
Proof.
  unfold substring. split.
  - induction s as [|c s IH]; simpl; rewrite orb_true_iff.
    + intros [(b & Hb)%startswith_spec|?]; [|done]. by exists "", b.
    + intros [(b & Hb)%startswith_spec|(a & b & ->)%IH]; [by exists "", b|].
      by exists (String c a), b.
  - intros (a & b & ->). induction a as [|c a IH]; simpl.
    + assert (Py.startswith p (p +:+ b) = true) as H by (apply startswith_spec; eauto).
      destruct (p +:+ b); simpl; rewrite H; done.
    + rewrite IH. apply orb_true_r.
Qed.

Lemma should_exclude_false self path ef ed f :
  _should_exclude_path self path ef ed = false → f ∈ path →
  (∀ S, ef = Some S → f ∉ S) ∧
  (∀ D func_def dir,
     ed = Some D →
     find_function_definition (cscope self) f = Some func_def →
     fc_file func_def ≠ "" → dir ∈ D →
     ¬ substring dir (fc_file func_def)).
Proof.
  unfold _should_exclude_path. intros H Hf. split.
  - intros S -> HS. simpl in H.
    destruct (bool_decide (S = ∅)) eqn:E.
    { apply bool_decide_eq_true in E. set_solver. }
    simpl in H.
    destruct (existsb _ path) eqn:Hex; [done|].
    apply not_true_iff_false in Hex. apply Hex, existsb_exists.
    exists f. split; [by apply list_elem_of_In|by apply bool_decide_eq_true].
  - intros D func_def dir -> Hdef Hfile Hdir Hsub.
    destruct (_ && _); [done|]. simpl in H.
    destruct (bool_decide (D = ∅)) eqn:E.
    { apply bool_decide_eq_true in E. set_solver. }
    simpl in H. apply not_true_iff_false in H. apply H, existsb_exists.
    exists f. split; [by apply list_elem_of_In|]. rewrite Hdef.
    apply String.eqb_neq in Hfile. rewrite Hfile. simpl.
    apply existsb_exists. exists dir. split.
    + apply list_elem_of_In, elem_of_elements. done.
    + by apply contains_spec.
Qed.

(** * The properties of the specification *)

(** C1.  Protection evidence.  The held set at the end of the walk holds
    the locks acquired along the path and not released afterwards, and the
    protection-evidence set holds every lock acquired along the path (also
    one released again in the same function).  Without a target-lock filter,
    when the held set is empty and the protection evidence is not, the
    context reports the protection evidence; with a filter it reports the
    held set.  On the path [A, B] where [A] runs [rtnl_lock()] at line 10 and
    [rtnl_unlock()] at line 20 before it calls [B], the unfiltered analysis
    reports [rtnl_lock]; and where [A] takes and releases the spinlock [L],
    it reports [L], which a query filtered on [L] does not. *)
Theorem analyze_path_locks_protection_evidence :
  (∀ self call_path target_locks,
     let st := walk_result self call_path target_locks in
     let ctx := _analyze_path_locks self call_path target_locks in
     (∀ l, l ∈ ps_held_locks st ↔
           still_held target_locks (tracked_operations self call_path) l) ∧
     (∀ l, l ∈ ps_protected_by_locks st ↔
           acquired target_locks (tracked_operations self call_path) l) ∧
     (Py.list_truthy target_locks = false →
      ps_held_locks st = ∅ → ps_protected_by_locks st ≠ ∅ →
      held_locks ctx = ps_protected_by_locks st) ∧
     (Py.list_truthy target_locks = true → held_locks ctx = ps_held_locks st)) ∧
  "rtnl_lock" ∈ held_locks (_analyze_path_locks rtnl_section (mkCallPath ["A"; "B"] 1) None) ∧
  held_locks (_analyze_path_locks spin_section (mkCallPath ["A"; "B"] 1) None) = {["L"]} ∧
  held_locks (_analyze_path_locks spin_section (mkCallPath ["A"; "B"] 1) (Some ["L"])) = ∅.
Proof.
  split; [|split_and!; by vm_compute].
  intros self call_path target_locks st ctx.
  destruct (walk_result_tracked self call_path target_locks) as [Hsim _].
  fold st in Hsim.
  assert (ps_held_locks st =
          (simulate target_locks (tracked_operations self call_path) (∅, ∅)).1) as Hh
    by (by rewrite <-Hsim).
  assert (ps_protected_by_locks st =
          (simulate target_locks (tracked_operations self call_path) (∅, ∅)).2) as Hp
    by (by rewrite <-Hsim).
  split_and!.
  - intros l. rewrite Hh. apply simulate_sets.
  - intros l. rewrite Hp. apply simulate_sets.
  - intros Hno Hheld Hprot. subst ctx. unfold _analyze_path_locks. cbv zeta. simpl.
    fold st. rewrite Hno.
    rewrite bool_decide_eq_true_2 by done. by rewrite bool_decide_eq_false_2 by done.
  - intros Hyes. subst ctx. unfold _analyze_path_locks. cbv zeta. simpl.
    fold st. rewrite Hyes. by rewrite andb_false_r.
Qed.

Lemma analyze_path_locks_protection_evidence_witness :
  Py.list_truthy (None : option (list string)) = false ∧
  ps_held_locks (walk_result spin_section (mkCallPath ["A"; "B"] 1) None) = ∅ ∧
  ps_protected_by_locks (walk_result spin_section (mkCallPath ["A"; "B"] 1) None) ≠ ∅ ∧
  held_locks (_analyze_path_locks spin_section (mkCallPath ["A"; "B"] 1) None) =
  ps_protected_by_locks (walk_result spin_section (mkCallPath ["A"; "B"] 1) None).
Proof.
  assert (ps_protected_by_locks (walk_result spin_section (mkCallPath ["A"; "B"] 1) None) ≠ ∅)
    as Hne.
  { vm_compute. discriminate. }
  split_and!; [reflexivity|by vm_compute|exact Hne|].
  destruct analyze_path_locks_protection_evidence as [H _].
  destruct (H spin_section (mkCallPath ["A"; "B"] 1) None) as (_ & _ & Hun & _).
  apply Hun; [reflexivity|by vm_compute|exact Hne].
Defined.



(** C9.  When the direct caller of the final function has no recorded call
    site whose callee is the final function, no operation of the caller is
    filtered out: the state tracked along the path is the one obtained from
    all the operations of all the functions of the path but the last. *)
Theorem no_call_site_no_line_filter self before caller target d target_locks :
  (∀ call, call ∈ get_functions_called_by (la_cscope self) caller →
           fc_function call ≠ target) →
  let call_path := mkCallPath (before ++ [caller; target]) d in
  let st := walk_result self call_path target_locks in
  let ctx := _analyze_path_locks self call_path target_locks in
  let tracked := flat_map (find_lock_operations self) (before ++ [caller]) in
  (ps_held_locks st, ps_protected_by_locks st) = simulate target_locks tracked (∅, ∅) ∧
  held_locks ctx = held_after target_locks tracked.
Proof.
  intros Hnone%target_call_line_None call_path st ctx tracked.
  assert (tracked_operations self call_path = tracked) as Htr.
  { subst call_path tracked. rewrite tracked_operations_snoc, flat_map_app.
    unfold _filter_operations_before_call. rewrite Hnone. simpl.
    by rewrite app_nil_r. }
  destruct (walk_result_tracked self call_path target_locks) as [Hsim Hops].
  rewrite Htr in Hsim. split; [done|].
  subst ctx. by rewrite analyze_path_locks_held_after, Htr.
Qed.

Lemma no_call_site_no_line_filter_witness :
  (∀ call, call ∈ get_functions_called_by (la_cscope lock_after_pointer_call) "A" →
           fc_function call ≠ "B") ∧
  held_locks (_analyze_path_locks lock_after_pointer_call
                (mkCallPath ([] ++ ["A"; "B"]) 1) None) =
  held_after None (flat_map (find_lock_operations lock_after_pointer_call) ([] ++ ["A"])) ∧
  "M" ∈ held_locks (_analyze_path_locks lock_after_pointer_call
                      (mkCallPath ["A"; "B"] 1) None).
Proof.
  assert (∀ call, call ∈ get_functions_called_by (la_cscope lock_after_pointer_call) "A" →
                  fc_function call ≠ "B") as H.
  { intros c Hc. vm_compute in Hc.
    repeat (apply elem_of_cons in Hc as [->|Hc]; [by vm_compute|]).
    by apply elem_of_nil in Hc. }
  split_and!; [exact H| |by vm_compute].
  apply (no_call_site_no_line_filter lock_after_pointer_call [] "A" "B" 1 None H).
Defined.

(** C4.  Every path returned by [trace_callers] or [trace_callees] has at
    most [max_depth + 1] functions. *)
Theorem traced_paths_within_depth_bound self root max_depth ef ed :
  (∃ ps, trace_callers self root max_depth ef ed = Some ps ∧
         ∀ p, p ∈ ps →
              Z.of_nat (length (functions p)) ≤ resolve_max_depth self max_depth + 1) ∧
  (∃ ps, trace_callees self root max_depth ef ed = Some ps ∧
         ∀ p, p ∈ ps →
              Z.of_nat (length (functions p)) ≤ resolve_max_depth self max_depth + 1).
Proof.
  split.
  - destruct (trace_callers_spec self root max_depth ef ed) as (ps & Hps & Hspec).
    exists ps. split; [done|].
    intros p (chain & -> & _ & Hlen & _)%Hspec. simpl. by rewrite length_reverse.
  - destruct (trace_callees_spec self root max_depth ef ed) as (ps & Hps & Hspec).
    exists ps. split; [done|].
    intros p (chain & -> & _ & Hlen & _)%Hspec. done.
Qed.

Lemma traced_paths_within_depth_bound_witness :
  ∃ ps, trace_callers (call_tracer two_cycle) "B" (Some 0) None None = Some ps ∧
        ∀ p, p ∈ ps → Z.of_nat (length (functions p)) ≤ 0 + 1.
Proof.
  exact (proj1 (traced_paths_within_depth_bound (call_tracer two_cycle) "B" (Some 0)
                  None None)).
Defined.

(** C3.  A branch cut off by the depth bound keeps the path found so far.
    When the search has accumulated the chain [accumulated] from the root,
    ending at [f], and reaches a neighbour [g] of [f] at a depth that exceeds
    [max_depth], it does not expand [g], and the path of [accumulated] is in
    the result unless it is excluded. *)
Theorem depth_cutoff_keeps_accumulated_path self root max_depth ef ed accumulated f g :
  head accumulated = Some root →
  last accumulated = Some f →
  NoDup accumulated →
  (* [f] was within the bound, [g] is one step beyond it *)
  Z.of_nat (length accumulated) - 1 ≤ resolve_max_depth self max_depth →
  Z.of_nat (length accumulated) > resolve_max_depth self max_depth →
  (is_chain (caller_names self) accumulated →
   g ∈ caller_names self f →
   _should_exclude_path self (reverse accumulated) ef ed = false →
   ∃ ps, trace_callers self root max_depth ef ed = Some ps ∧
         mkCallPath (reverse accumulated) (Z.of_nat (length accumulated) - 1) ∈ ps ∧
         ∀ p, p ∈ ps → length (functions p) ≠ length (accumulated ++ [g])) ∧
  (is_chain (callee_names self) accumulated →
   g ∈ callee_names self f →
   _should_exclude_path self accumulated ef ed = false →
   ∃ ps, trace_callees self root max_depth ef ed = Some ps ∧
         mkCallPath accumulated (Z.of_nat (length accumulated) - 1) ∈ ps ∧
         ∀ p, p ∈ ps → length (functions p) ≠ length (accumulated ++ [g])).
Proof.
  intros Hhd Hlast Hnd Hle Hgt. split; intros Hch Hg Hex.
  - destruct (trace_callers_spec self root max_depth ef ed) as (ps & Hps & Hspec).
    exists ps. split_and!; [done| |].
    + apply Hspec. exists accumulated. split_and!; auto. lia.
    + intros p (chain & -> & _ & Hlen & _)%Hspec. simpl.
      rewrite length_reverse, length_app. simpl. lia.
  - destruct (trace_callees_spec self root max_depth ef ed) as (ps & Hps & Hspec).
    exists ps. split_and!; [done| |].
    + apply Hspec. exists accumulated. split_and!; auto. lia.
    + intros p (chain & -> & _ & Hlen & _)%Hspec. simpl.
      rewrite length_app. simpl. lia.
Qed.

Lemma depth_cutoff_keeps_accumulated_path_witness :
  ∃ ps, trace_callees (call_tracer two_cycle) "A" (Some 0) None None = Some ps ∧
        mkCallPath ["A"] 0 ∈ ps ∧
        ∀ p, p ∈ ps → length (functions p) ≠ length (["A"] ++ ["B"]).
Proof.
  refine (proj2 (depth_cutoff_keeps_accumulated_path (call_tracer two_cycle) "A" (Some 0)
                   None None ["A"] "A" "B" _ _ _ _ _) _ _ _).
  - reflexivity.
  - reflexivity.
  - apply NoDup_singleton.
  - simpl. lia.
  - simpl. lia.
  - exact I.
  - vm_compute. left.
  - reflexivity.
Defined.

(** C6.  No path returned by [trace_callers], [trace_callees] or
    [find_call_paths] holds a function twice, whatever the call relation; on
    the two-node cycle where [A] calls [B] and [B] calls [A], the traces
    from [A] stop when they come back to [A]. *)
Theorem returned_paths_repeat_no_function :
  (∀ self root target max_depth ef ed,
     (∃ ps, trace_callers self root max_depth ef ed = Some ps ∧
            ∀ p, p ∈ ps → NoDup (functions p)) ∧
     (∃ ps, trace_callees self root max_depth ef ed = Some ps ∧
            ∀ p, p ∈ ps → NoDup (functions p)) ∧
     (∃ ps, find_call_paths self root target max_depth = Some ps ∧
            ∀ p, p ∈ ps → NoDup (functions p))) ∧
  trace_callees (call_tracer two_cycle) "A" (Some 5) None None =
    Some [mkCallPath ["A"] 0; mkCallPath ["A"; "B"] 1] ∧
  trace_callers (call_tracer two_cycle) "A" (Some 5) None None =
    Some [mkCallPath ["A"] 0; mkCallPath ["B"; "A"] 1] ∧
  find_call_paths (call_tracer two_cycle) "A" "B" (Some 5) =
    Some [mkCallPath ["A"; "B"] 1].
Proof.
  split; [|by vm_compute].
  intros self root target max_depth ef ed. split_and!.
  - destruct (trace_callers_spec self root max_depth ef ed) as (ps & Hps & Hspec).
    exists ps. split; [done|].
    intros p (chain & -> & _ & _ & Hnd & _)%Hspec. simpl. by rewrite reverse_Permutation.
  - destruct (trace_callees_spec self root max_depth ef ed) as (ps & Hps & Hspec).
    exists ps. split; [done|].
    intros p (chain & -> & _ & _ & Hnd & _)%Hspec. done.
  - destruct (find_call_paths_spec self root target max_depth) as (ps & Hps & Hall).
    exists ps. split; [done|]. rewrite Forall_forall in Hall.
    intros p (pre & -> & _ & Hnd & _)%Hall. done.
Qed.

Lemma returned_paths_repeat_no_function_witness :
  ∃ ps, trace_callers (call_tracer two_cycle) "A" (Some 5) None None = Some ps ∧
        ∀ p, p ∈ ps → NoDup (functions p).
Proof.
  exact (proj1 (proj1 returned_paths_repeat_no_function (call_tracer two_cycle)
                  "A" "B" (Some 5) None None)).
Defined.




(** C5.  The result of [get_unique_call_chains] holds no two paths one of
    which is a proper suffix of the other, and the result of
    [get_unique_callee_chains] no two paths one of which is a proper prefix
    of the other. *)
Theorem unique_chains_are_irredundant self root max_depth ef ed :
  (∃ ps, get_unique_call_chains self root max_depth ef ed = Some ps ∧
         ∀ p q, p ∈ ps → q ∈ ps → ¬ proper_suffix (functions p) (functions q)) ∧
  (∃ ps, get_unique_callee_chains self root max_depth ef ed = Some ps ∧
         ∀ p q, p ∈ ps → q ∈ ps → ¬ proper_prefix (functions p) (functions q)).
Proof.
  split.
  - destruct (trace_callers_spec self root max_depth ef ed) as (ps & Hps & Hspec).
    exists (filter_unique slice_last ps). unfold get_unique_call_chains.
    rewrite Hps. split; [done|].
    apply (filter_unique_irredundant slice_last proper_suffix proper_suffix_slice_last).
    intros p Hp%Hspec. eapply traced_nonempty; [|exact Hp]. apply length_reverse.
  - destruct (trace_callees_spec self root max_depth ef ed) as (ps & Hps & Hspec).
    exists (filter_unique slice_first ps). unfold get_unique_callee_chains.
    rewrite Hps. split; [done|].
    apply (filter_unique_irredundant slice_first proper_prefix proper_prefix_slice_first).
    intros p Hp%Hspec. eapply traced_nonempty; [|exact Hp]. done.
Qed.

Lemma unique_chains_are_irredundant_witness :
  get_unique_call_chains (call_tracer two_cycle) "B" None None None =
    Some [mkCallPath ["A"; "B"] 1] ∧
  ∃ ps, get_unique_call_chains (call_tracer two_cycle) "B" None None None = Some ps ∧
        ∀ p q, p ∈ ps → q ∈ ps → ¬ proper_suffix (functions p) (functions q).
Proof.
  split; [by vm_compute|].
  exact (proj1 (unique_chains_are_irredundant (call_tracer two_cycle) "B" None None None)).
Defined.

(** C8.  On a finite call graph, [get_function_depth_map] returns a map in
    which a function has depth [d] exactly when [d] is the least number of
    callee edges from a root to it; and a proposal for a function already
    recorded with a depth that is not larger is discarded: the loop goes on
    with the map unchanged. *)
Theorem depth_map_records_minimum_depth self roots universe :
  closed_universe self roots universe = true →
  (∃ depth_map,
     (∀ fuel, (depth_map_fuel self roots universe ≤ fuel)%nat →
              get_function_depth_map self fuel roots = Some depth_map) ∧
     ∀ f d, depth_map !! f = Some d ↔
            walk self roots f d ∧ ∀ n, walk self roots f n → d ≤ n) ∧
  (∀ fuel function depth queue depth_map d,
     depth_map !! function = Some d → d ≤ depth →
     depth_map_loop self (S fuel) ((function, depth) :: queue) depth_map =
     depth_map_loop self fuel queue depth_map).
Proof.
  intros Hclosed. split.
  - by apply get_function_depth_map_spec.
  - intros. by eapply depth_map_loop_discard.
Qed.

Lemma depth_map_records_minimum_depth_witness :
  closed_universe (call_tracer two_cycle) ["A"] ["A"; "B"] = true ∧
  get_function_depth_map (call_tracer two_cycle) 10 ["A"] =
    Some (<["A" := 0]> (<["B" := 1]> ∅)) ∧
  ∃ depth_map,
    (∀ fuel, (depth_map_fuel (call_tracer two_cycle) ["A"] ["A"; "B"] ≤ fuel)%nat →
             get_function_depth_map (call_tracer two_cycle) fuel ["A"] = Some depth_map) ∧
    ∀ f d, depth_map !! f = Some d ↔
           walk (call_tracer two_cycle) ["A"] f d ∧
           ∀ n, walk (call_tracer two_cycle) ["A"] f n → d ≤ n.
Proof.
  split; [reflexivity|]. split; [by vm_compute|].
  apply (depth_map_records_minimum_depth (call_tracer two_cycle) ["A"] ["A"; "B"]).
  reflexivity.
Defined.

(** C10, as stated, fails when the depth bound is negative: the search
    from a function to itself then returns no path. *)
Lemma find_call_paths_same_negative_bound :
  ¬ (∀ self f max_depth,
       find_call_paths self f f max_depth = Some [mkCallPath [f] 0]).
Proof.
  intros H. specialize (H (call_tracer two_cycle) "A" (Some (-1))).
  vm_compute in H. discriminate.
Qed.

(** C10, amended.  Every path returned by [find_call_paths] begins with
    [from_function], ends with [to_function], holds [to_function] once and
    no function twice; from a function to itself the result is the single
    path of that function at depth 0 when the depth bound is not negative,
    and no path when it is negative. *)
Theorem find_call_paths_shape self from_function to_function max_depth :
  (∃ ps, find_call_paths self from_function to_function max_depth = Some ps ∧
         ∀ p, p ∈ ps →
              head (functions p) = Some from_function ∧
              last (functions p) = Some to_function ∧
              (∃ pre, functions p = pre ++ [to_function] ∧ to_function ∉ pre) ∧
              NoDup (functions p)) ∧
  find_call_paths self from_function from_function max_depth =
    Some (if bool_decide (0 > resolve_max_depth self max_depth) then []
          else [mkCallPath [from_function] 0]).
Proof.
  split; [|apply find_call_paths_same].
  destruct (find_call_paths_spec self from_function to_function max_depth)
    as (ps & Hps & Hall).
  exists ps. split; [done|]. rewrite Forall_forall in Hall.
  intros p (pre & -> & Hhd & Hnd & _)%Hall. simpl in *. split_and!.
  - done.
  - by rewrite last_snoc.
  - exists pre. split; [done|]. apply NoDup_app in Hnd as (_ & Hdis & _).
    intros Hin. apply (Hdis _ Hin). left.
  - done.
Qed.

Lemma find_call_paths_shape_witness :
  find_call_paths (call_tracer two_cycle) "A" "A" (Some 3) = Some [mkCallPath ["A"] 0].
Proof.
  exact (proj2 (find_call_paths_shape (call_tracer two_cycle) "A" "B" (Some 3))).
Defined.

(** * Further properties of the call tracer *)

Lemma is_chain_adjacent step l a b :
  is_chain step l → adjacent a b l → b ∈ step a.
Proof.
  intros Hch (l1 & l2 & ->). induction l1 as [|x l1 IH]; simpl in *.
  - by destruct Hch.
  - apply IH. destruct (l1 ++ a :: b :: l2) eqn:E; [by destruct l1|].
    by destruct Hch.
Qed.

Lemma adjacent_reverse {A} (a b : A) l :
  adjacent a b (reverse l) → adjacent b a l.
Proof.
  intros (l1 & l2 & E). exists (reverse l2), (reverse l1).
  rewrite <-(reverse_involutive l), E.
  rewrite reverse_app, !reverse_cons, <-!app_assoc. done.
Qed.

Lemma should_exclude_nothing self path :
  _should_exclude_path self path None None = false.
Proof. done. Qed.

(** X1.  The paths of a trace are anchored at the function traced: a path
    returned by [trace_callers] ends with the target, one returned by
    [trace_callees] begins with the source; and the [depth] of a returned
    path is its number of functions less one, between 0 and the bound. *)
Theorem traced_paths_anchor_and_depth self root max_depth ef ed :
  (∃ ps, trace_callers self root max_depth ef ed = Some ps ∧
         ∀ p, p ∈ ps →
              last (functions p) = Some root ∧
              depth p = Z.of_nat (length (functions p)) - 1 ∧
              0 ≤ depth p ≤ resolve_max_depth self max_depth) ∧
  (∃ ps, trace_callees self root max_depth ef ed = Some ps ∧
         ∀ p, p ∈ ps →
              head (functions p) = Some root ∧
              depth p = Z.of_nat (length (functions p)) - 1 ∧
              0 ≤ depth p ≤ resolve_max_depth self max_depth).
Proof.
  split.
  - destruct (trace_callers_spec self root max_depth ef ed) as (ps & Hps & Hspec).
    exists ps. split; [done|].
    intros p (chain & -> & Hhd & Hlen & _)%Hspec. simpl.
    destruct chain as [|r chain]; [done|]. injection Hhd as ->.
    rewrite reverse_cons, last_snoc, length_app, length_reverse. simpl in *.
    split_and!; [done|lia..].
  - destruct (trace_callees_spec self root max_depth ef ed) as (ps & Hps & Hspec).
    exists ps. split; [done|].
    intros p (chain & -> & Hhd & Hlen & _)%Hspec. simpl.
    destruct chain as [|r chain]; [done|]. simpl in *. split_and!; [done|lia..].
Qed.

(** X2.  Every step of a returned path is a call the collaborator reported:
    in a path of [trace_callers], a function is among the callers looked up
    for the function after it; in a path of [trace_callees], a function is
    among the callees of the function before it. *)
Theorem traced_paths_follow_calls self root max_depth ef ed :
  (∃ ps, trace_callers self root max_depth ef ed = Some ps ∧
         ∀ p a b, p ∈ ps → adjacent a b (functions p) → a ∈ caller_names self b) ∧
  (∃ ps, trace_callees self root max_depth ef ed = Some ps ∧
         ∀ p a b, p ∈ ps → adjacent a b (functions p) → b ∈ callee_names self a).
Proof.
  split.
  - destruct (trace_callers_spec self root max_depth ef ed) as (ps & Hps & Hspec).
    exists ps. split; [done|].
    intros p a b (chain & -> & _ & _ & _ & Hch & _)%Hspec Hadj. simpl in Hadj.
    apply adjacent_reverse in Hadj. by eapply (is_chain_adjacent _ chain b a).
  - destruct (trace_callees_spec self root max_depth ef ed) as (ps & Hps & Hspec).
    exists ps. split; [done|].
    intros p a b (chain & -> & _ & _ & _ & Hch & _)%Hspec Hadj. simpl in Hadj.
    by eapply (is_chain_adjacent _ chain a b).
Qed.

(** X3.  The traces miss nothing: every chain of callers (of callees) that
    starts at the function traced, repeats no function, has at most
    [max_depth + 1] functions and is not excluded is returned, reversed for
    callers. *)
Theorem traces_return_every_chain self root max_depth ef ed chain :
  head chain = Some root →
  NoDup chain →
  Z.of_nat (length chain) ≤ resolve_max_depth self max_depth + 1 →
  (is_chain (caller_names self) chain →
   _should_exclude_path self (reverse chain) ef ed = false →
   ∃ ps, trace_callers self root max_depth ef ed = Some ps ∧
         mkCallPath (reverse chain) (Z.of_nat (length chain) - 1) ∈ ps) ∧
  (is_chain (callee_names self) chain →
   _should_exclude_path self chain ef ed = false →
   ∃ ps, trace_callees self root max_depth ef ed = Some ps ∧
         mkCallPath chain (Z.of_nat (length chain) - 1) ∈ ps).
Proof.
  intros Hhd Hnd Hlen. split; intros Hch Hex.
  - destruct (trace_callers_spec self root max_depth ef ed) as (ps & Hps & Hspec).
    exists ps. split; [done|]. apply Hspec. exists chain. split_and!; auto.
  - destruct (trace_callees_spec self root max_depth ef ed) as (ps & Hps & Hspec).
    exists ps. split; [done|]. apply Hspec. exists chain. split_and!; auto.
Qed.

Lemma traces_return_every_chain_witness :
  ∃ ps, trace_callers (call_tracer two_cycle) "A" (Some 1) None None = Some ps ∧
        mkCallPath (reverse ["A"; "B"]) (Z.of_nat (length ["A"; "B"]) - 1) ∈ ps.
Proof.
  refine (proj1 (traces_return_every_chain (call_tracer two_cycle) "A" (Some 1) None None
                   ["A"; "B"] _ _ _) _ _).
  - reflexivity.
  - apply NoDup_cons. split; [|apply NoDup_singleton].
    intros H%list_elem_of_singleton. discriminate.
  - simpl. lia.
  - split; [|exact I]. vm_compute. left.
  - reflexivity.
Defined.

(** X4.  Raising the depth bound only adds paths: a path returned under the
    bound [d] is returned under every bound [d' >= d]. *)
Theorem traces_grow_with_depth self root d d' ef ed :
  d ≤ d' →
  (∃ ps ps', trace_callers self root (Some d) ef ed = Some ps ∧
             trace_callers self root (Some d') ef ed = Some ps' ∧
             ∀ p, p ∈ ps → p ∈ ps') ∧
  (∃ ps ps', trace_callees self root (Some d) ef ed = Some ps ∧
             trace_callees self root (Some d') ef ed = Some ps' ∧
             ∀ p, p ∈ ps → p ∈ ps').
Proof.
  intros Hle. split.
  - destruct (trace_callers_spec self root (Some d) ef ed) as (ps & Hps & Hspec).
    destruct (trace_callers_spec self root (Some d') ef ed) as (ps' & Hps' & Hspec').
    exists ps, ps'. split_and!; [done..|].
    intros p (chain & -> & Hhd & Hlen & Hnd & Hch & Hex)%Hspec. apply Hspec'.
    exists chain. simpl in *. split_and!; auto. lia.
  - destruct (trace_callees_spec self root (Some d) ef ed) as (ps & Hps & Hspec).
    destruct (trace_callees_spec self root (Some d') ef ed) as (ps' & Hps' & Hspec').
    exists ps, ps'. split_and!; [done..|].
    intros p (chain & -> & Hhd & Hlen & Hnd & Hch & Hex)%Hspec. apply Hspec'.
    exists chain. simpl in *. split_and!; auto. lia.
Qed.

Lemma traces_grow_with_depth_witness :
  ∃ ps ps', trace_callers (call_tracer two_cycle) "A" (Some 0) None None = Some ps ∧
            trace_callers (call_tracer two_cycle) "A" (Some 1) None None = Some ps' ∧
            ∀ p, p ∈ ps → p ∈ ps'.
Proof.
  refine (proj1 (traces_grow_with_depth (call_tracer two_cycle) "A" 0 1 None None _)).
  lia.
Defined.

(** X5.  With a negative depth bound the three searches return no path at
    all, not even the path of the function itself. *)
Theorem negative_bound_returns_nothing self root target max_depth ef ed :
  resolve_max_depth self max_depth < 0 →
  trace_callers self root max_depth ef ed = Some [] ∧
  trace_callees self root max_depth ef ed = Some [] ∧
  find_call_paths self root target max_depth = Some [].
Proof.
  intros Hneg. unfold trace_callers, trace_callees, find_call_paths, trace_fuel.
  cbv zeta. simpl.
  rewrite (bool_decide_eq_true_2 (0 > resolve_max_depth self max_depth)) by lia.
  done.
Qed.

Lemma negative_bound_returns_nothing_witness :
  trace_callers (call_tracer two_cycle) "A" (Some (-1)) None None = Some [] ∧
  trace_callees (call_tracer two_cycle) "A" (Some (-1)) None None = Some [] ∧
  find_call_paths (call_tracer two_cycle) "A" "B" (Some (-1)) = Some [].
Proof.
  apply (negative_bound_returns_nothing (call_tracer two_cycle) "A" "B" (Some (-1))).
  simpl. lia.
Defined.

Lemma grows_elem {A} (Q : A → Prop) l l' x : grows Q l l' → x ∈ l → x ∈ l'.
Proof. intros (n & -> & _) Hx. apply elem_of_app. by left. Qed.

Lemma find_paths_complete self max_depth fuel cur target path depth visited paths paths' pre :
  visited = list_to_set path →
  _find_paths_recursive self max_depth fuel cur target path depth visited paths
    = Some paths' →
  head (pre ++ [target]) = Some cur →
  NoDup (path ++ pre ++ [target]) →
  is_chain (callee_names self) (pre ++ [target]) →
  depth + Z.of_nat (length pre) ≤ max_depth →
  mkCallPath (path ++ pre ++ [target]) (depth + Z.of_nat (length pre)) ∈ paths'.
Proof.
  revert cur path depth visited paths paths' pre.
  induction fuel as [|fuel IH];
    intros cur path depth visited paths paths' pre Hvis Hrun Hhd Hnd Hch Hd; [done|].
  assert (NoDup path ∧ target ∉ path) as [Hndp Htp].
  { apply NoDup_app in Hnd as (? & Hdis & _). split; [done|].
    intros Hin. apply (Hdis _ Hin). apply elem_of_app. right. left. }
  simpl in Hrun.
  destruct (bool_decide (depth > max_depth)) eqn:Hdd.
  { apply bool_decide_eq_true in Hdd. lia. }
  destruct (String.eqb cur target) eqn:Heq.
  { apply String.eqb_eq in Heq as ->. injection Hrun as <-.
    destruct pre as [|x pre].
    - simpl. rewrite Z.add_0_r. apply elem_of_app. right. left.
    - simpl in Hhd. injection Hhd as ->. exfalso.
      apply NoDup_app in Hnd as (_ & _ & Hnd). simpl in Hnd.
      apply NoDup_cons in Hnd as [Hnin _]. apply Hnin, elem_of_app. right. left. }
  apply String.eqb_neq in Heq.
  destruct pre as [|x pre]; [simpl in Hhd; by injection Hhd as ->|].
  simpl in Hhd. injection Hhd as ->.
  destruct (bool_decide (cur ∈ visited)) eqn:Hin.
  { apply bool_decide_eq_true in Hin. subst visited.
    apply elem_of_list_to_set in Hin.
    apply NoDup_app in Hnd as (_ & Hdis & _). exfalso. apply (Hdis _ Hin). left. }
  assert (NoDup (path ++ [cur])) as Hndc.
  { replace (path ++ (cur :: pre) ++ [target]) with ((path ++ [cur]) ++ pre ++ [target]) in Hnd
      by (by rewrite <-app_assoc).
    by apply NoDup_app in Hnd as (? & _ & _). }
  assert (∀ (s : list CallPath) (x : FunctionCall) s',
            x ∈ get_functions_called_by (cscope self) cur → True →
            _find_paths_recursive self max_depth fuel (fc_function x) target
              (path ++ [cur]) (depth + 1) ({[cur]} ∪ visited) s = Some s' →
            grows (λ _, True) s s') as Hstep.
  { intros s x s' _ _ Hb. eapply grows_mono; [|eapply find_paths_sound; [| | |exact Hb]].
    - done.
    - done.
    - rewrite elem_of_app, list_elem_of_singleton. intros [?|?]; [done|]. by subst.
    - subst visited. set_solver. }
  simpl in Hch.
  destruct (pre ++ [target]) as [|c rest] eqn:E; [by destruct pre|].
  destruct Hch as [Hc Hch].
  apply list_elem_of_fmap in Hc as (x & -> & Hx).
  destruct (for_each_elem _ (λ _, True) (grows (λ _, True)) _ _ _ x
              (grows_refl _) (grows_trans _) ltac:(done) Hstep I Hrun Hx)
    as (s & s' & _ & _ & Hb & Hrest).
  eapply grows_elem; [exact Hrest|].
  replace (path ++ (cur :: pre) ++ [target]) with ((path ++ [cur]) ++ pre ++ [target]) in *
    by (by rewrite <-app_assoc).
  replace (depth + Z.of_nat (length (cur :: pre)))
    with (depth + 1 + Z.of_nat (length pre)) by (simpl length; lia).
  eapply IH; [|exact Hb|..].
  - subst visited. set_solver.
  - by rewrite E.
  - done.
  - by rewrite E.
  - simpl length in Hd. lia.
Qed.

(** X6.  [find_call_paths] is exact.  It returns the chains of callees from
    [from_function] to [to_function] that repeat no function and reach
    [to_function] within [max_depth] edges, and nothing else: every such
    chain is returned, every returned path is such a chain, and its [depth]
    is its number of edges. *)
Theorem find_call_paths_exact self from_function to_function max_depth :
  ∃ ps,
    find_call_paths self from_function to_function max_depth = Some ps ∧
    ∀ chain d,
      mkCallPath chain d ∈ ps ↔
      head chain = Some from_function ∧
      last chain = Some to_function ∧
      NoDup chain ∧
      is_chain (callee_names self) chain ∧
      d = Z.of_nat (length chain) - 1 ∧
      d ≤ resolve_max_depth self max_depth.
Proof.
  destruct (find_call_paths_spec self from_function to_function max_depth)
    as (ps & Hps & Hall).
  exists ps. split; [done|]. rewrite Forall_forall in Hall. intros chain d. split.
  - intros (pre & [= -> ->] & Hhd & Hnd & Hd & Hch)%Hall. simpl in *.
    rewrite last_snoc, length_app. simpl. split_and!; auto; lia.
  - intros (Hhd & Hlast & Hnd & Hch & -> & Hd).
    destruct chain as [|x chain _] using rev_ind; [done|].
    rewrite last_snoc in Hlast. injection Hlast as ->.
    rewrite length_app in *. simpl in *.
    replace (Z.of_nat (length chain + 1) - 1) with (0 + Z.of_nat (length chain)) in * by lia.
    unfold find_call_paths in Hps. cbv zeta in Hps.
    by apply (find_paths_complete self (resolve_max_depth self max_depth)
                (trace_fuel (resolve_max_depth self max_depth))
                from_function to_function [] 0 ∅ [] ps chain).
Qed.

(** X7.  Without exclusions, every path that [find_call_paths] returns from
    [from_function] is also returned by [trace_callees] from the same
    function under the same bound. *)
Theorem found_paths_are_traced self from_function to_function max_depth :
  ∃ found traced,
    find_call_paths self from_function to_function max_depth = Some found ∧
    trace_callees self from_function max_depth None None = Some traced ∧
    ∀ p, p ∈ found → p ∈ traced.
Proof.
  destruct (find_call_paths_spec self from_function to_function max_depth)
    as (found & Hfound & Hall).
  destruct (trace_callees_spec self from_function max_depth None None)
    as (traced & Htraced & Hspec).
  exists found, traced. split_and!; [done..|]. rewrite Forall_forall in Hall.
  intros p (pre & -> & Hhd & Hnd & Hd & Hch)%Hall. apply Hspec.
  exists (pre ++ [to_function]). simpl in *. rewrite length_app. simpl.
  split_and!; auto; [f_equal; lia|lia].
Qed.

(** X8.  [_should_exclude_path] excludes a path exactly when one of its
    functions is in the set of excluded functions, or is defined in a file
    whose non-empty path has an excluded directory as a substring.  So the
    answer depends on the functions of the path only, not on their order,
    and a path that holds an excluded path is excluded. *)
Theorem should_exclude_path_exact self path ef ed :
  _should_exclude_path self path ef ed = true ↔
  (∃ f S, ef = Some S ∧ f ∈ path ∧ f ∈ S) ∨
  (∃ f D func_def dir,
     ed = Some D ∧ f ∈ path ∧
     find_function_definition (cscope self) f = Some func_def ∧
     fc_file func_def ≠ "" ∧ dir ∈ D ∧ substring dir (fc_file func_def)).
Proof.
  split.
  - unfold _should_exclude_path.
    destruct (Py.set_truthy ef && _) eqn:E1.
    + intros _. left. apply andb_true_iff in E1 as [Ht (f & Hf & Hin)%existsb_exists].
      destruct ef as [S|]; [|done]. exists f, S. split_and!; [done| |].
      * by apply list_elem_of_In.
      * by apply bool_decide_eq_true in Hin.
    + destruct (Py.set_truthy ed) eqn:E2; [|done].
      intros (f & Hf & Hin)%existsb_exists. right.
      destruct ed as [D|]; [|done].
      destruct (find_function_definition (cscope self) f) as [func_def|] eqn:Hdef; [|done].
      destruct (String.eqb (fc_file func_def) "") eqn:Hfile; [done|]. simpl in Hin.
      apply existsb_exists in Hin as (dir & Hdir & Hsub).
      exists f, D, func_def, dir. split_and!; auto.
      * by apply list_elem_of_In.
      * by apply String.eqb_neq.
      * by apply elem_of_elements, list_elem_of_In.
      * by apply contains_spec.
  - intros H. destruct (_should_exclude_path self path ef ed) eqn:E; [done|]. exfalso.
    destruct H as [(f & S & -> & Hf & HS)|(f & D & fd & dir & -> & Hf & Hdef & Hfile & Hdir & Hsub)].
    + destruct (should_exclude_false self path (Some S) ed f E Hf) as [H _].
      by apply (H S).
    + destruct (should_exclude_false self path ef (Some D) f E Hf) as [_ H].
      by apply (H D fd dir).
Qed.

Lemma size_list_to_set_le (l : list string) :
  (size (list_to_set l : gset string) ≤ length l)%nat.
Proof.
  induction l as [|x l IH]; [by rewrite list_to_set_nil, size_empty|].
  rewrite list_to_set_cons. simpl length.
  destruct (decide (x ∈ (list_to_set l : gset string))) as [Hin|Hnin].
  - replace ({[x]} ∪ list_to_set l : gset string) with (list_to_set l : gset string)
      by set_solver. lia.
  - rewrite size_union by set_solver. rewrite size_singleton. lia.
Qed.

Lemma size_list_to_set_eq (l : list string) :
  size (list_to_set l : gset string) = length l ↔ NoDup l.
Proof.
  split; [|apply size_list_to_set].
  induction l as [|x l IH]; [constructor|].
  rewrite list_to_set_cons. simpl length.
  destruct (decide (x ∈ (list_to_set l : gset string))) as [Hin|Hnin].
  - replace ({[x]} ∪ list_to_set l : gset string) with (list_to_set l : gset string)
      by set_solver.
    pose proof (size_list_to_set_le l). lia.
  - rewrite size_union by set_solver. rewrite size_singleton. intros H.
    apply NoDup_cons. split; [by rewrite elem_of_list_to_set in Hnin|].
    apply IH. lia.
Qed.

(** X9.  In the statistics of a function, the number of distinct callers is
    at most the number of caller call sites, with equality exactly when no
    caller appears twice; likewise for the callees. *)
Theorem call_statistics_unique_counts self function :
  let stats := get_call_statistics self function in
  (unique_callers stats ≤ caller_count stats)%nat ∧
  (unique_callers stats = caller_count stats ↔
   NoDup (fc_function <$> get_functions_calling (cscope self) function)) ∧
  (unique_callees stats ≤ callee_count stats)%nat ∧
  (unique_callees stats = callee_count stats ↔
   NoDup (fc_function <$> get_functions_called_by (cscope self) function)).
Proof.
  simpl. split_and!.
  - rewrite <-(length_fmap fc_function). apply size_list_to_set_le.
  - rewrite <-(length_fmap fc_function). apply size_list_to_set_eq.
  - rewrite <-(length_fmap fc_function). apply size_list_to_set_le.
  - rewrite <-(length_fmap fc_function). apply size_list_to_set_eq.
Qed.

(** ** Further properties of the unique-chain operations *)

Lemma fold_left_inv {A B} (f : B → A → B) (I : B → Prop) l b :
  I b → (∀ b x, x ∈ l → I b → I (f b x)) → I (fold_left f l b).
Proof.
  revert b. induction l as [|x l IH]; intros b Hb Hf; simpl; [done|].
  apply IH.
  - apply Hf; [left|done].
  - intros b' y Hy. apply Hf. by right.
Qed.

Lemma fold_left_elem_inv {A B} (f : B → A → B) (P : A → B → Prop) l b x :
  (∀ b y, y ∈ l → P y (f b y)) →
  (∀ b y z, P y b → P y (f b z)) →
  x ∈ l → P x (fold_left f l b).
Proof.
  intros Hin Hpres. revert b. induction l as [|y l IH]; intros b Hx; simpl.
  { by apply elem_of_nil in Hx. }
  apply elem_of_cons in Hx as [->|Hx].
  - apply (fold_left_inv f (P y)); [apply Hin; left|]. intros; by apply Hpres.
  - apply IH; [|done]. intros b' z Hz. apply Hin. by right.
Qed.

Lemma dict_get_set_eq {V} k (v : V) d : dict_get k (dict_set k v d) = Some v.
Proof.
  induction d as [|[k' v'] d IH]; simpl.
  - by rewrite String.eqb_refl.
  - destruct (String.eqb k' k) eqn:E; simpl; [by rewrite String.eqb_refl|].
    by rewrite E.
Qed.

Lemma dict_get_set_ne {V} k k' (v : V) d :
  k ≠ k' → dict_get k' (dict_set k v d) = dict_get k' d.
Proof.
  intros Hne. induction d as [|[k0 v0] d IH]; simpl.
  - apply String.eqb_neq in Hne. by rewrite Hne.
  - destruct (String.eqb k0 k) eqn:E; simpl.
    + apply String.eqb_eq in E as ->. apply String.eqb_neq in Hne. by rewrite Hne.
    + by rewrite IH.
Qed.

Lemma dict_get_elem {V} k (v : V) d : dict_get k d = Some v → (k, v) ∈ d.
Proof.
  induction d as [|[k' v'] d IH]; simpl; [done|].
  destruct (String.eqb k' k) eqn:E.
  - apply String.eqb_eq in E as ->. intros [= ->]. left.
  - intros H. right. by apply IH.
Qed.

Lemma elem_of_dict_set_pair {V} k (v : V) d x :
  x ∈ dict_set k v d → x = (k, v) ∨ x ∈ d.
Proof.
  induction d as [|[k' v'] d IH]; simpl.
  - rewrite list_elem_of_singleton. auto.
  - destruct (String.eqb k' k); rewrite !elem_of_cons; naive_solver.
Qed.

Lemma dict_set_keys_NoDup {V} k (v : V) d :
  NoDup d.*1 → NoDup (dict_set k v d).*1.
Proof.
  induction d as [|[k' v'] d IH]; simpl.
  - intros _. apply NoDup_singleton.
  - rewrite NoDup_cons. intros [Hk Hd].
    destruct (String.eqb k' k) eqn:E; simpl.
    + apply String.eqb_eq in E as ->. by apply NoDup_cons.
    + apply String.eqb_neq in E. apply NoDup_cons. split; [|by apply IH].
      intros ([k0 v0] & Hk0 & [[= -> ->]|Hin]%elem_of_dict_set_pair)%list_elem_of_fmap;
        simpl in *; subst; [done|].
      apply Hk. apply list_elem_of_fmap. by exists (k0, v0).
Qed.

(** The dictionary of step (1): its keys are distinct, every key is the
    string of its path, and every path of the trace has its key in it. *)
Lemma group_paths_keys all_paths :
  NoDup (group_paths all_paths).*1 ∧
  (∀ k v, (k, v) ∈ group_paths all_paths → k = path_str (functions v)) ∧
  (∀ p, p ∈ all_paths →
        is_Some (dict_get (path_str (functions p)) (group_paths all_paths))).
Proof.
  unfold group_paths. split_and!.
  - apply (fold_left_inv _ (λ d : list (string * CallPath), NoDup d.*1)); [constructor|].
    intros d p _ Hd. cbv zeta.
    destruct (dict_get _ d); [destruct (_ <? _)%nat|]; auto using dict_set_keys_NoDup.
  - apply (fold_left_inv _ (λ d : list (string * CallPath),
                              ∀ k v, (k, v) ∈ d → k = path_str (functions v))).
    { intros k v Hin. by apply elem_of_nil in Hin. }
    intros d p _ Hd k v. cbv zeta.
    destruct (dict_get _ d); [destruct (_ <? _)%nat|]; auto;
      intros [[= -> ->]|Hin]%elem_of_dict_set_pair; auto.
  - intros p Hp.
    apply (fold_left_elem_inv _
             (λ p (d : list (string * CallPath)),
                is_Some (dict_get (path_str (functions p)) d))); [| |done].
    + intros d y _. cbv zeta. fold (path_str (functions y)).
      destruct (dict_get (path_str (functions y)) d) eqn:E;
        [destruct (_ <? _)%nat|]; rewrite ?dict_get_set_eq, ?E; eauto.
    + intros d y z Hy. cbv zeta. fold (path_str (functions z)).
      assert (is_Some (dict_get (path_str (functions y))
                         (dict_set (path_str (functions z)) z d))) as Hset.
      { destruct (decide (path_str (functions z) = path_str (functions y))) as [->|Hne].
        - rewrite dict_get_set_eq. eauto.
        - by rewrite dict_get_set_ne. }
      destruct (dict_get (path_str (functions z)) d);
        [destruct (_ <? _)%nat|]; auto.
Qed.

Lemma keep_unique_sublist slice todo acc :
  fold_left (keep_unique slice) todo acc `sublist_of` acc ++ todo.
Proof.
  revert acc. induction todo as [|t todo IH]; intros acc; simpl.
  { by rewrite app_nil_r. }
  etrans; [apply IH|]. unfold keep_unique.
  destruct (is_subset_of_kept slice (functions t) acc).
  - apply sublist_app; [done|]. by apply sublist_cons.
  - by rewrite <-app_assoc.
Qed.

Lemma keep_unique_keeps_acc slice todo acc x :
  x ∈ acc → x ∈ fold_left (keep_unique slice) todo acc.
Proof.
  revert acc. induction todo as [|t todo IH]; intros acc Hx; simpl; [done|].
  apply IH. unfold keep_unique. destruct (is_subset_of_kept _ _ _); [done|].
  apply elem_of_app. by left.
Qed.

Section unique_chains_cover.
Variable slice : nat → list string → list string.
Variable covers : list string → list string → Prop.
Hypothesis covers_refl : ∀ l, covers l l.
Hypothesis slice_covers :
  ∀ s l, (length s < length l)%nat → slice (length s) l = s → covers s l.

Lemma keep_unique_covers todo acc x :
  x ∈ acc ∨ x ∈ todo →
  ∃ q, q ∈ fold_left (keep_unique slice) todo acc ∧ covers (functions x) (functions q).
Proof.
  revert acc. induction todo as [|t todo IH]; intros acc [Hx|Hx]; simpl.
  - eauto.
  - by apply elem_of_nil in Hx.
  - exists x. split; [|done]. apply keep_unique_keeps_acc.
    unfold keep_unique. destruct (is_subset_of_kept _ _ _); [done|].
    apply elem_of_app. by left.
  - apply elem_of_cons in Hx as [->|Hx]; [|apply IH; by right].
    unfold keep_unique at 2.
    destruct (is_subset_of_kept slice (functions t) acc) eqn:E.
    + apply existsb_exists in E as (e & He%list_elem_of_In & [Hlen Hsl]%andb_true_iff).
      apply Nat.ltb_lt in Hlen. apply bool_decide_eq_true in Hsl.
      exists e. split; [by apply keep_unique_keeps_acc|]. by apply slice_covers.
    + apply IH. left. apply elem_of_app. right. left.
Qed.

Lemma filter_unique_covers all_paths p :
  distinct_strings all_paths = true → p ∈ all_paths →
  ∃ q, q ∈ filter_unique slice all_paths ∧ covers (functions p) (functions q).
Proof.
  intros Hinj Hp.
  destruct (group_paths_keys all_paths) as (_ & Hkey & Hcov).
  destruct (Hcov p Hp) as [g Hg]. apply dict_get_elem in Hg.
  assert (g ∈ all_paths) as Hgall.
  { apply elem_of_group_paths, list_elem_of_fmap. by exists (path_str (functions p), g). }
  assert (functions p = functions g) as Hfg.
  { unfold distinct_strings in Hinj. rewrite forallb_forall in Hinj.
    specialize (Hinj p ltac:(by apply list_elem_of_In)). rewrite forallb_forall in Hinj.
    specialize (Hinj g ltac:(by apply list_elem_of_In)).
    rewrite (Hkey _ _ Hg), String.eqb_refl in Hinj. simpl in Hinj.
    by apply bool_decide_eq_true in Hinj. }
  unfold filter_unique. cbv zeta.
  destruct (keep_unique_covers
              (stable_sort (λ p q, (length (functions q) <? length (functions p))%nat)
                 (group_paths all_paths).*2) [] g) as (q & Hq & Hc).
  { right. apply elem_of_stable_sort, list_elem_of_fmap.
    by exists (path_str (functions p), g). }
  exists q. split; [by apply elem_of_stable_sort|]. by rewrite Hfg.
Qed.
End unique_chains_cover.

Lemma slice_last_suffix (s l : list string) :
  (length s < length l)%nat → slice_last (length s) l = s → s `suffix_of` l.
Proof.
  unfold slice_last. intros Hlen Hsl. destruct (length s =? 0)%nat.
  - subst l. lia.
  - exists (take (length l - length s) l). by rewrite <-Hsl at 2; rewrite take_drop.
Qed.

Lemma slice_first_prefix (s l : list string) :
  (length s < length l)%nat → slice_first (length s) l = s → s `prefix_of` l.
Proof.
  unfold slice_first. intros _ Hsl. exists (drop (length s) l).
  by rewrite <-Hsl at 1; rewrite take_drop.
Qed.

Lemma keys_of_values {V} (h : V → string) (d : list (string * V)) :
  (∀ k v, (k, v) ∈ d → k = h v) → h <$> d.*2 = d.*1.
Proof.
  induction d as [|[k v] d IH]; intros H; [done|].
  rewrite !fmap_cons. f_equal.
  - symmetry. apply H. left.
  - apply IH. intros; apply H; by right.
Qed.

Lemma filter_unique_NoDup slice all_paths :
  NoDup (functions <$> filter_unique slice all_paths).
Proof.
  unfold filter_unique. cbv zeta. rewrite stable_sort_perm.
  eapply sublist_NoDup; [|apply fmap_sublist, keep_unique_sublist].
  simpl. rewrite stable_sort_perm.
  destruct (group_paths_keys all_paths) as (Hnd & Hkey & _).
  apply (NoDup_fmap_1 path_str). rewrite <-list_fmap_compose.
  by rewrite (keys_of_values (path_str ∘ functions) _ Hkey).
Qed.

Lemma stable_insert_ascending {A} (key : A → nat) (lt : A → A → bool) x l :
  (∀ a b, lt a b = true → (key a ≤ key b)%nat) →
  (∀ a b, lt a b = false → (key b ≤ key a)%nat) →
  StronglySorted (λ a b, (key a ≤ key b)%nat) l →
  StronglySorted (λ a b, (key a ≤ key b)%nat) (stable_insert lt x l).
Proof.
  intros H1 H2. induction 1 as [|y l Hl IH Hy]; simpl.
  - repeat constructor.
  - destruct (lt y x) eqn:E.
    + constructor; [done|]. rewrite stable_insert_perm. constructor; [by apply H1|done].
    + constructor; [by constructor|]. apply H2 in E.
      constructor; [done|]. eapply Forall_impl; [exact Hy|]. simpl. intros; lia.
Qed.

Lemma filter_unique_ascending slice all_paths :
  StronglySorted (λ p q, (length (functions p) ≤ length (functions q))%nat)
    (filter_unique slice all_paths).
Proof.
  unfold filter_unique. cbv zeta. unfold stable_sort at 1.
  match goal with |- context [foldr _ [] ?l0] => generalize l0 end.
  intros l. induction l as [|x l IH]; simpl; [constructor|].
  apply (stable_insert_ascending (λ p, length (functions p))); [| |done].
  - intros a b [H|[H _]%andb_true_iff]%orb_true_iff; simpl in H.
    + apply Nat.ltb_lt in H. lia.
    + apply Nat.eqb_eq in H. lia.
  - intros a b [H _]%orb_false_iff. simpl in H. by apply Nat.ltb_ge in H.
Qed.

(** X10.  The unique-chain operations lose nothing.  When distinct paths of
    the trace have distinct strings, every path that [trace_callers] returns
    is one of the chains of [get_unique_call_chains] or the end of one, and
    every path that [trace_callees] returns is one of the chains of
    [get_unique_callee_chains] or the start of one. *)
Theorem unique_chains_cover_the_trace self root max_depth ef ed :
  (∀ ps, trace_callers self root max_depth ef ed = Some ps →
         distinct_strings ps = true →
         ∃ us, get_unique_call_chains self root max_depth ef ed = Some us ∧
               ∀ p, p ∈ ps → ∃ q, q ∈ us ∧ functions p `suffix_of` functions q) ∧
  (∀ ps, trace_callees self root max_depth ef ed = Some ps →
         distinct_strings ps = true →
         ∃ us, get_unique_callee_chains self root max_depth ef ed = Some us ∧
               ∀ p, p ∈ ps → ∃ q, q ∈ us ∧ functions p `prefix_of` functions q).
Proof.
  split; intros ps Hps Hinj.
  - exists (filter_unique slice_last ps). unfold get_unique_call_chains. rewrite Hps.
    split; [done|]. intros p Hp.
    by apply (filter_unique_covers slice_last suffix ltac:(done) slice_last_suffix).
  - exists (filter_unique slice_first ps). unfold get_unique_callee_chains. rewrite Hps.
    split; [done|]. intros p Hp.
    by apply (filter_unique_covers slice_first prefix ltac:(done) slice_first_prefix).
Qed.

Lemma unique_chains_cover_the_trace_witness :
  ∃ us, get_unique_call_chains (call_tracer two_cycle) "A" None None None = Some us ∧
        ∀ p, p ∈ [mkCallPath ["A"] 0; mkCallPath ["B"; "A"] 1] →
             ∃ q, q ∈ us ∧ functions p `suffix_of` functions q.
Proof.
  refine (proj1 (unique_chains_cover_the_trace (call_tracer two_cycle) "A" None None None)
            [mkCallPath ["A"] 0; mkCallPath ["B"; "A"] 1] _ _).
  - by vm_compute.
  - reflexivity.
Defined.

(** X11.  The chains returned by the unique-chain operations come in order
    of non-decreasing length, and no sequence of functions is returned
    twice (also when the trace holds a path several times, as it does when a
    function calls another at several places). *)
Theorem unique_chains_sorted_and_distinct self root max_depth ef ed :
  (∃ us, get_unique_call_chains self root max_depth ef ed = Some us ∧
         StronglySorted (λ p q, (length (functions p) ≤ length (functions q))%nat) us ∧
         NoDup (functions <$> us)) ∧
  (∃ us, get_unique_callee_chains self root max_depth ef ed = Some us ∧
         StronglySorted (λ p q, (length (functions p) ≤ length (functions q))%nat) us ∧
         NoDup (functions <$> us)).
Proof.
  split.
  - destruct (trace_callers_spec self root max_depth ef ed) as (ps & Hps & _).
    exists (filter_unique slice_last ps). unfold get_unique_call_chains. rewrite Hps.
    split_and!; [done|apply filter_unique_ascending|apply filter_unique_NoDup].
  - destruct (trace_callees_spec self root max_depth ef ed) as (ps & Hps & _).
    exists (filter_unique slice_first ps). unfold get_unique_callee_chains. rewrite Hps.
    split_and!; [done|apply filter_unique_ascending|apply filter_unique_NoDup].
Qed.

(** * Further properties of the lock analyzer *)

Lemma lock_patterns_actions :
  Forall (λ '(_, ops),
            Forall (λ '(op_type, _), op_type = "acquire" ∨ op_type = "release")
                   (ops : list (string * list (list atom))))
         LOCK_PATTERNS.
Proof.
  unfold LOCK_PATTERNS.
  repeat first [apply Forall_nil_2 | apply Forall_cons_2]; auto.
Qed.

Lemma identify_lock_operation_elem call caller_function op :
  op ∈ _identify_lock_operation call caller_function →
  op_function op = caller_function ∧
  (operation op = "acquire" ∨ operation op = "release") ∧
  lock_name op = _extract_lock_name (fc_context call) (fc_function call) ∧
  op_file op = fc_file call ∧ op_line op = fc_line call ∧
  op_context op = fc_context call.
Proof.
  unfold _identify_lock_operation. intros Hop%list_elem_of_In.
  apply in_flat_map in Hop as ([lock_type ops] & Hty & Hop).
  apply in_flat_map in Hop as ([op_type patterns] & Hops & Hop).
  pose proof lock_patterns_actions as Hall. rewrite Forall_forall in Hall.
  specialize (Hall _ (proj2 (list_elem_of_In _ _) Hty)). simpl in Hall.
  rewrite Forall_forall in Hall.
  specialize (Hall _ (proj2 (list_elem_of_In _ _) Hops)). simpl in Hall.
  destruct (existsb _ patterns); [|done].
  destruct Hop as [<-|[]]. simpl. split_and!; done.
Qed.

Lemma find_lock_operations_elem self function op :
  op ∈ find_lock_operations self function →
  ∃ call, call ∈ get_functions_called_by (la_cscope self) function ∧
          op ∈ _identify_lock_operation call function.
Proof.
  unfold find_lock_operations. intros Hop%list_elem_of_In.
  apply in_flat_map in Hop as (call & Hcall & Hop).
  exists call. split; by apply list_elem_of_In.
Qed.

(** X12.  Every operation that [find_lock_operations] reports for a
    function is owned by that function (never by the lock primitive
    called), is an acquire or a release, and carries the file, line and
    text of one of the call sites of the function, with the lock name
    extracted from that call site. *)
Theorem lock_operations_come_from_call_sites self function op :
  op ∈ find_lock_operations self function →
  op_function op = function ∧
  (operation op = "acquire" ∨ operation op = "release") ∧
  ∃ call, call ∈ get_functions_called_by (la_cscope self) function ∧
          op_file op = fc_file call ∧ op_line op = fc_line call ∧
          op_context op = fc_context call ∧
          lock_name op = _extract_lock_name (fc_context call) (fc_function call).
Proof.
  intros (call & Hcall & Hop)%find_lock_operations_elem.
  apply identify_lock_operation_elem in Hop as (? & ? & ? & ? & ? & ?).
  split_and!; [done..|]. exists call. split_and!; done.
Qed.

Lemma lock_operations_come_from_call_sites_witness :
  op_function (mkLockOperation "M" SPINLOCK "acquire" "A" "file.c" 20 "spin_lock(&M);") = "A".
Proof.
  refine (proj1 (lock_operations_come_from_call_sites lock_after_call "A"
                   (mkLockOperation "M" SPINLOCK "acquire" "A" "file.c" 20 "spin_lock(&M);")
                   _)).
  vm_compute. left.
Defined.

Lemma existsb_mono {A} (f : A → bool) (l l' : list A) :
  (∀ x, x ∈ l → x ∈ l') → existsb f l = true → existsb f l' = true.
Proof.
  intros Hsub (x & Hx & Hf)%existsb_exists. apply existsb_exists.
  exists x. split; [|done]. by apply list_elem_of_In, Hsub, list_elem_of_In.
Qed.

(** X13.  Matching a lock against the target list: a lock whose name is in
    the list always matches; an empty list matches no lock; and a lock that
    matches a list matches every list that holds the same targets and
    more. *)
Theorem lock_matches_target_monotone lock_name target_locks target_locks' :
  (lock_name ∈ target_locks → _lock_matches_target lock_name target_locks = true) ∧
  _lock_matches_target lock_name [] = false ∧
  ((∀ t, t ∈ target_locks → t ∈ target_locks') →
   _lock_matches_target lock_name target_locks = true →
   _lock_matches_target lock_name target_locks' = true).
Proof.
  split_and!.
  - intros Hin. unfold _lock_matches_target. by rewrite bool_decide_eq_true_2.
  - unfold _lock_matches_target, LOCK_MATCHING_CONFIG. simpl.
    by rewrite !andb_false_r.
  - intros Hsub. unfold _lock_matches_target.
    destruct (bool_decide (lock_name ∈ target_locks)) eqn:E.
    + apply bool_decide_eq_true in E. by rewrite bool_decide_eq_true_2 by auto.
    + intros H. destruct (bool_decide (lock_name ∈ target_locks')); [done|].
      apply existsb_exists in H as ([pats gens] & Hin & [H1 H2]%andb_true_iff).
      apply existsb_exists. exists (pats, gens). split; [done|].
      apply andb_true_iff. split; [done|]. by eapply existsb_mono.
Qed.

Lemma tracked_operations_displayed self call_path op :
  op ∈ tracked_operations self call_path →
  op ∈ flat_map (find_lock_operations self) (path_functions call_path).
Proof.
  unfold tracked_operations.
  rewrite <-(reverse_involutive (path_functions call_path)) at 2.
  destruct (reverse (path_functions call_path)) as [|caller rev_before].
  { by intros ?%elem_of_nil. }
  rewrite reverse_cons, flat_map_app. simpl. rewrite app_nil_r.
  intros [Hop|Hop]%elem_of_app; apply elem_of_app; [by left|right].
  unfold _filter_operations_before_call in Hop.
  destruct (target_call_line _ _ _); [|done].
  apply list_elem_of_In, filter_In in Hop as [Hop _]. by apply list_elem_of_In.
Qed.

Lemma still_held_acquired target_locks ops l :
  still_held target_locks ops l → acquired target_locks ops l.
Proof.
  intros (ops1 & a & ops2 & -> & Ha & Hl & _). exists a. split_and!; [|done..].
  apply elem_of_app. right. left.
Qed.

Lemma held_locks_acquired self call_path target_locks l :
  l ∈ held_locks (_analyze_path_locks self call_path target_locks) →
  acquired target_locks (tracked_operations self call_path) l.
Proof.
  rewrite analyze_path_locks_held_after. unfold held_after. cbv zeta.
  destruct (simulate_sets target_locks (tracked_operations self call_path) l) as [H1 H2].
  destruct (_ && _ && _); intros Hl.
  - by apply H2.
  - by apply still_held_acquired, H1.
Qed.

(** X14.  A lock is reported held only if an operation displayed for the
    path acquires it: a lock that the path only releases is never reported,
    and neither is a lock that only the final function of the path takes. *)
Theorem held_locks_are_acquired_on_the_path self call_path target_locks l :
  l ∈ held_locks (_analyze_path_locks self call_path target_locks) →
  ∃ op, op ∈ lock_operations (_analyze_path_locks self call_path target_locks) ∧
        operation op = "acquire" ∧ lock_name op = l ∧
        op_function op ∈ path_functions call_path.
Proof.
  intros (a & Ha & Hacq & Hname)%held_locks_acquired.
  exists a. unfold is_acquire in Hacq. apply andb_true_iff in Hacq as [_ Hacq].
  apply String.eqb_eq in Hacq.
  apply tracked_operations_displayed in Ha.
  split_and!; [|done..|].
  - unfold _analyze_path_locks. simpl.
    by destruct (walk_result_tracked self call_path target_locks) as [_ ->].
  - apply list_elem_of_In, in_flat_map in Ha as (f & Hf & Hop).
    apply list_elem_of_In, find_lock_operations_elem in Hop as (call & _ & Hop).
    apply identify_lock_operation_elem in Hop as (-> & _). by apply list_elem_of_In.
Qed.

Lemma held_locks_are_acquired_on_the_path_witness :
  ∃ op, op ∈ lock_operations
               (_analyze_path_locks spin_section (mkCallPath ["A"; "B"] 1) None) ∧
        operation op = "acquire" ∧ lock_name op = "L" ∧
        op_function op ∈ path_functions (mkCallPath ["A"; "B"] 1).
Proof.
  apply (held_locks_are_acquired_on_the_path spin_section (mkCallPath ["A"; "B"] 1) None "L").
  by vm_compute.
Defined.

Lemma matches_target_by_name target_locks a b :
  lock_name a = lock_name b →
  matches_target target_locks a = matches_target target_locks b.
Proof. unfold matches_target. by intros ->. Qed.

(** X15.  A target-lock filter only narrows the report: every lock that
    [_analyze_path_locks] reports held under a filter is also reported held
    by the unfiltered analysis of the same path. *)
Theorem filtered_held_locks_are_held_unfiltered self call_path target_locks l :
  l ∈ held_locks (_analyze_path_locks self call_path (Some target_locks)) →
  l ∈ held_locks (_analyze_path_locks self call_path None).
Proof.
  rewrite !analyze_path_locks_held_after. unfold held_after. cbv zeta.
  set (ops := tracked_operations self call_path).
  destruct (simulate_sets (Some target_locks) ops l) as [Hf1 Hf2].
  destruct (simulate_sets None ops l) as [Hu1 Hu2].
  assert (acquired (Some target_locks) ops l → acquired None ops l) as Hacq.
  { intros (a & Ha & [_ Hop]%andb_true_iff & Hn). exists a. by split_and!. }
  assert (still_held (Some target_locks) ops l → still_held None ops l) as Hheld.
  { intros (ops1 & a & ops2 & Heq & [Hm Hop]%andb_true_iff & Hn & Hrel).
    exists ops1, a, ops2. split_and!; [done|done|done|].
    intros r Hr [[_ Hr1]%andb_true_iff Hr2]%andb_true_iff Hrn.
    apply (Hrel r Hr); [|done]. unfold is_release.
    rewrite (matches_target_by_name _ r a) by congruence.
    by rewrite Hm, Hr1, Hr2. }
  intros Hl.
  assert (acquired None ops l ∧
          (Py.list_truthy (Some target_locks) = true → still_held None ops l) ∧
          (Py.list_truthy (Some target_locks) = false →
           simulate (Some target_locks) ops (∅, ∅) = simulate None ops (∅, ∅)))
    as (Ha & Hh & Hsame).
  { split_and!.
    - destruct (_ && _ && _) in Hl; [by apply Hacq, Hf2|].
      by apply Hacq, still_held_acquired, Hf1.
    - intros Ht. rewrite Ht, andb_false_r in Hl. by apply Hheld, Hf1.
    - intros Ht. destruct target_locks; [|done]. done. }
  destruct (Py.list_truthy (Some target_locks)) eqn:Ht.
  - specialize (Hh eq_refl). apply Hu1 in Hh.
    rewrite (bool_decide_eq_false_2 ((simulate None ops (∅, ∅)).1 = ∅)) by set_solver.
    done.
  - rewrite (Hsame eq_refl) in Hl. exact Hl.
Qed.

Lemma filtered_held_locks_are_held_unfiltered_witness :
  "rtnl_lock" ∈ held_locks (_analyze_path_locks rtnl_section (mkCallPath ["A"; "B"] 1) None).
Proof.
  apply (filtered_held_locks_are_held_unfiltered rtnl_section (mkCallPath ["A"; "B"] 1)
           ["rtnl"] "rtnl_lock").
  by vm_compute.
Defined.

(** X16.  A path without a caller has nothing to analyse: for a path of at
    most one function, no lock is reported held and no operation is
    displayed, whatever the function does itself. *)
Theorem path_without_caller_reports_nothing self path target_locks :
  (length (functions path) ≤ 1)%nat →
  held_locks (_analyze_path_locks self path target_locks) = ∅ ∧
  lock_operations (_analyze_path_locks self path target_locks) = [] ∧
  call_path (_analyze_path_locks self path target_locks) = functions path.
Proof.
  intros Hlen. unfold _analyze_path_locks, walk_result, path_functions. cbv zeta.
  destruct (1 <? length (functions path))%nat eqn:E.
  { apply Nat.ltb_lt in E. lia. }
  simpl. rewrite bool_decide_eq_true_2 by done. simpl.
  by destruct (negb (Py.list_truthy target_locks)).
Qed.

Lemma path_without_caller_reports_nothing_witness :
  held_locks (_analyze_path_locks spin_section (mkCallPath ["A"] 0) None) = ∅.
Proof.
  refine (proj1 (path_without_caller_reports_nothing spin_section (mkCallPath ["A"] 0)
                   None _)).
  simpl. lia.
Defined.

(** ** The operations built on [analyze_lock_context] *)

(** [analyze_lock_context] returns, with one context for each caller path
    of the target, unique chains or all of them. *)
Lemma analyze_lock_context_spec self target target_locks unique_only ef ed :
  ∃ call_paths,
    analyze_lock_context self target target_locks unique_only ef ed =
      Some ((λ path, _analyze_path_locks self path target_locks) <$> call_paths) ∧
    ∀ p, p ∈ call_paths →
         traced (callers_of (call_tracer self)) reverse
                (λ p, _should_exclude_path (call_tracer self) p ef ed)
                (tracer_max_depth (call_tracer self)) target p.
Proof.
  destruct (trace_callers_spec (call_tracer self) target None ef ed) as (ps & Hps & Hspec).
  unfold analyze_lock_context. destruct unique_only.
  - exists (filter_unique slice_last ps). unfold get_unique_call_chains. rewrite Hps.
    split; [done|]. intros p Hp%filter_unique_subset. by apply Hspec.
  - exists ps. rewrite Hps. split; [done|]. intros p Hp. by apply Hspec.
Qed.

Lemma traced_callers_shape neighbours excluded max_depth root p :
  traced neighbours reverse excluded max_depth root p →
  ∃ before, functions p = before ++ [root] ∧ (root ∉ before) ∧ NoDup (functions p).
Proof.
  intros (chain & -> & Hhd & _ & Hnd & _). simpl.
  destruct chain as [|r chain]; [done|]. injection Hhd as ->.
  exists (reverse chain). rewrite reverse_cons. split_and!; [done| |].
  - apply NoDup_cons in Hnd as [Hnin _]. by rewrite elem_of_reverse.
  - rewrite <-reverse_cons. by rewrite reverse_Permutation.
Qed.

Lemma path_functions_removelast p before x :
  functions p = before ++ [x] → path_functions p = before.
Proof.
  intros E. unfold path_functions. rewrite E, removelast_last, length_app. simpl.
  destruct before as [|b before]; [done|].
  destruct (1 <? _)%nat eqn:E'; [done|]. apply Nat.ltb_ge in E'. simpl in E'. lia.
Qed.

(** X17.  Every context that [analyze_lock_context] returns is for the
    target function: its [function] is the target, its call path ends with
    the target and holds no function twice, and every operation displayed
    belongs to a function of the path other than the target, so that the
    locks the target takes itself never count as protection. *)
Theorem lock_contexts_are_for_the_target self target target_locks unique_only ef ed :
  ∃ contexts,
    analyze_lock_context self target target_locks unique_only ef ed = Some contexts ∧
    ∀ context, context ∈ contexts →
      ctx_function context = target ∧
      last (call_path context) = Some target ∧
      NoDup (call_path context) ∧
      ∀ op, op ∈ lock_operations context →
            op_function op ∈ call_path context ∧ op_function op ≠ target.
Proof.
  destruct (analyze_lock_context_spec self target target_locks unique_only ef ed)
    as (paths & Hrun & Htr).
  eexists. split; [exact Hrun|].
  intros context (p & -> & Hp)%list_elem_of_fmap.
  destruct (traced_callers_shape _ _ _ _ _ (Htr p Hp)) as (before & E & Hnin & Hnd).
  unfold _analyze_path_locks. simpl.
  destruct (walk_result_tracked self p target_locks) as [_ ->].
  rewrite (path_functions_removelast p before target E).
  unfold last_function. rewrite E, last_snoc. split_and!.
  - by destruct (before ++ [target]) eqn:E'; [destruct before|].
  - done.
  - by rewrite <-E.
  - intros op Hop. apply list_elem_of_In, in_flat_map in Hop as (f & Hf & Hop).
    apply list_elem_of_In, find_lock_operations_elem in Hop as (call & _ & Hop).
    apply identify_lock_operation_elem in Hop as (-> & _).
    apply list_elem_of_In in Hf. split; [apply elem_of_app; by left|].
    by intros ->.
Qed.



(** X19.  [find_unprotected_calls] returns exactly the contexts of the
    filtered analysis in which some required lock is not held, in the order
    of the analysis; with no required lock it returns nothing. *)
Theorem unprotected_calls_miss_a_required_lock self function required_locks
    unique_only ef ed :
  ∃ contexts unprotected,
    analyze_lock_context self function (Some required_locks) unique_only ef ed
      = Some contexts ∧
    find_unprotected_calls self function required_locks unique_only ef ed
      = Some unprotected ∧
    unprotected `sublist_of` contexts ∧
    (∀ context, context ∈ unprotected ↔
                context ∈ contexts ∧
                ∃ l, l ∈ required_locks ∧ l ∉ held_locks context) ∧
    (required_locks = [] → unprotected = []).
Proof.
  destruct (analyze_lock_context_spec self function (Some required_locks) unique_only ef ed)
    as (paths & Hrun & _).
  unfold find_unprotected_calls. rewrite Hrun. do 2 eexists.
  split; [done|]. split; [done|]. simpl.
  set (contexts := (λ path, _analyze_path_locks self path (Some required_locks)) <$> paths).
  assert (∀ context : LockContext,
            negb (bool_decide ((list_to_set required_locks : gset string) ∖
                                 held_locks context = ∅)) = true ↔
            ∃ l, l ∈ required_locks ∧ l ∉ held_locks context) as Hmiss.
  { intros context. rewrite negb_true_iff, bool_decide_eq_false. split.
    - intros (l & Hl)%set_choose_L. exists l. set_solver.
    - intros (l & Hl & Hn). set_solver. }
  split_and!.
  - generalize contexts. intros l. induction l as [|c l IH]; simpl; [done|].
    destruct (negb _); [by apply sublist_skip|by apply sublist_cons].
  - intros context. rewrite list_elem_of_In, filter_In, <-list_elem_of_In.
    by rewrite Hmiss.
  - intros ->. generalize contexts. intros l. induction l as [|c l IH]; simpl; [done|].
    rewrite bool_decide_eq_true_2; [done|set_solver].
Qed.

Lemma summary_loop_spec contexts :
  let '(all_locks, protected_paths, unprotected_paths) := summary_loop contexts in
  (∀ l, l ∈ all_locks ↔ ∃ context, context ∈ contexts ∧ l ∈ held_locks context) ∧
  protected_paths =
    length (List.filter (λ c, negb (bool_decide (held_locks c = ∅))) contexts) ∧
  unprotected_paths =
    length (List.filter (λ c, bool_decide (held_locks c = ∅)) contexts).
Proof.
  unfold summary_loop. induction contexts as [|c contexts IH] using rev_ind.
  - simpl. split_and!; [|done..]. intros l. split; [set_solver|].
    by intros (c & ?%elem_of_nil & _).
  - rewrite fold_left_app. simpl.
    destruct (fold_left _ contexts _) as [[all_locks n] m].
    destruct IH as (Hl & -> & ->).
    rewrite !List.filter_app, !length_app. simpl.
    destruct (bool_decide (held_locks c = ∅)) eqn:E; simpl.
    + split_and!; [|lia..]. intros l. rewrite elem_of_union, Hl. split.
      * intros [(c' & Hc' & Hin)|Hin]; [|exists c; split; [|done]; set_solver].
        exists c'. split; [|done]. apply elem_of_app. by left.
      * intros (c' & [Hc'|Hc'%list_elem_of_singleton]%elem_of_app & Hin);
          [left; eauto|right; by subst].
    + split_and!; [|lia..]. intros l. rewrite elem_of_union, Hl. split.
      * intros [(c' & Hc' & Hin)|Hin]; [|exists c; split; [|done]; set_solver].
        exists c'. split; [|done]. apply elem_of_app. by left.
      * intros (c' & [Hc'|Hc'%list_elem_of_singleton]%elem_of_app & Hin);
          [left; eauto|right; by subst].
Qed.

(** X20.  In the summary of a function, every call path counts as
    protected (some lock reported held by the unfiltered analysis) or as
    unprotected, never both; the locks encountered are the locks reported
    held on some path, [lock_count] is their number, and it is zero exactly
    when no path is protected. *)
Theorem lock_summary_counts self function :
  ∃ contexts summary,
    analyze_lock_context self function None true None None = Some contexts ∧
    get_lock_summary self function = Some summary ∧
    total_call_paths summary = length contexts ∧
    total_call_paths summary = (protected_paths summary + unprotected_paths summary)%nat ∧
    protected_paths summary =
      length (List.filter (λ c, negb (bool_decide (held_locks c = ∅))) contexts) ∧
    (∀ l, l ∈ locks_encountered summary ↔
          ∃ context, context ∈ contexts ∧ l ∈ held_locks context) ∧
    lock_count summary = size (locks_encountered summary) ∧
    (lock_count summary = 0%nat ↔ protected_paths summary = 0%nat).
Proof.
  destruct (analyze_lock_context_spec self function None true None None)
    as (paths & Hrun & _).
  unfold get_lock_summary. rewrite Hrun. simpl.
  set (contexts := (λ path, _analyze_path_locks self path None) <$> paths).
  pose proof (summary_loop_spec contexts) as Hloop.
  destruct (summary_loop contexts) as [[all_locks n] m].
  destruct Hloop as (Hl & Hn & Hm).
  do 2 eexists. split; [done|]. split; [done|]. simpl. split_and!; [done| |done|done|done|].
  - subst n m. clear. induction contexts as [|c l IH]; simpl; [done|].
    destruct (bool_decide (held_locks c = ∅)); simpl; lia.
  - rewrite size_empty_iff, leibniz_equiv_iff. subst n. split.
    + intros ->.
      assert (∀ c, c ∈ contexts → held_locks c = ∅) as Hall.
      { intros c Hc. apply set_eq. intros x. split; [|set_solver].
        intros Hx. apply Hl. eauto. }
      clear -Hall. induction contexts as [|c l IH]; simpl; [done|].
      rewrite bool_decide_eq_true_2 by (apply Hall; left). simpl.
      apply IH. intros; apply Hall; by right.
    + intros Hnone. apply set_eq. intros x. split; [|set_solver].
      intros (c & Hc & Hx)%Hl. exfalso.
      assert (c ∈ List.filter (λ c, negb (bool_decide (held_locks c = ∅))) contexts) as Hin.
      { apply list_elem_of_In, filter_In. split; [by apply list_elem_of_In|].
        rewrite bool_decide_eq_false_2; [done|set_solver]. }
      apply nil_length_inv in Hnone. rewrite Hnone in Hin.
      by apply elem_of_nil in Hin.
Qed.

(** ** Further properties of the depth map and of the lock names *)

Lemma walk_nonneg self roots f n : walk self roots f n → 0 ≤ n.
Proof. induction 1; lia. Qed.

Lemma walk_in_universe self roots universe f n :
  closed_universe self roots universe = true →
  walk self roots f n → f ∈ universe.
Proof.
  intros [Hroots Hclosed]%closed_universe_spec. induction 1; eauto.
Qed.

(** X21.  The depth map of a finite call graph is consistent along the
    calls: every root has depth 0, every recorded function lies in the call
    graph at a depth that is not negative, and every callee of a recorded
    function is recorded too, at most one level deeper. *)
Theorem depth_map_is_consistent self roots universe :
  closed_universe self roots universe = true →
  ∃ depth_map,
    (∀ fuel, (depth_map_fuel self roots universe ≤ fuel)%nat →
             get_function_depth_map self fuel roots = Some depth_map) ∧
    (∀ r, r ∈ roots → depth_map !! r = Some 0) ∧
    (∀ f d, depth_map !! f = Some d → 0 ≤ d ∧ f ∈ universe) ∧
    (∀ f d g, depth_map !! f = Some d → g ∈ callee_names self f →
              ∃ d', depth_map !! g = Some d' ∧ d' ≤ d + 1).
Proof.
  intros Hclosed.
  destruct (get_function_depth_map_spec self roots universe Hclosed) as (dm & Hrun & Hleast).
  exists dm. split; [done|].
  assert (∀ f n, walk self roots f n → ∃ k, dm !! f = Some k ∧ k ≤ n) as Hcover.
  { pose proof (Hrun _ (le_n _)) as Hdm. unfold get_function_depth_map in Hdm.
    destruct (depth_map_loop_inv self roots (depth_map_fuel self roots universe)
                ((λ func : string, (func, 0)) <$> roots) ∅ dm) as [_ Hc]; [| |exact Hdm|].
    - split; [|by intros ? ? ?%lookup_empty_Some].
      intros g k (r & [= -> ->] & Hr)%list_elem_of_fmap. by constructor.
    - split; [|by intros ? ? ? ?%lookup_empty_Some].
      intros r Hr. exists 0. split; [done|]. left. apply list_elem_of_fmap. eauto.
    - intros f n Hw.
      destruct (closure_covers_walks _ _ _ _ _ Hc Hw) as (k & Hk & E). eauto. }
  split_and!.
  - intros r Hr. apply Hleast. split; [by constructor|].
    intros n Hn. by eapply walk_nonneg.
  - intros f d [Hw _]%Hleast. split; [by eapply walk_nonneg|by eapply walk_in_universe].
  - intros f d g [Hw _]%Hleast Hg.
    apply (Hcover g (d + 1)). by eapply walk_step.
Qed.

Lemma depth_map_is_consistent_witness :
  ∃ depth_map,
    (∀ fuel, (depth_map_fuel (call_tracer two_cycle) ["A"] ["A"; "B"] ≤ fuel)%nat →
             get_function_depth_map (call_tracer two_cycle) fuel ["A"] = Some depth_map) ∧
    (∀ r, r ∈ ["A"] → depth_map !! r = Some 0) ∧
    (∀ f d, depth_map !! f = Some d → 0 ≤ d ∧ f ∈ ["A"; "B"]) ∧
    (∀ f d g, depth_map !! f = Some d → g ∈ callee_names (call_tracer two_cycle) f →
              ∃ d', depth_map !! g = Some d' ∧ d' ≤ d + 1).
Proof.
  apply (depth_map_is_consistent (call_tracer two_cycle) ["A"] ["A"; "B"]).
  reflexivity.
Defined.

(** X22.  For the locks whose identity is the function called, the lock
    name is the callee name whatever the text of the call: for every callee
    whose name starts with [rcu_read_], [netlink_] or [genl], and for every
    callee whose name starts with [rtnl] or [netdev_] and contains [lock]. *)
Theorem lock_name_is_the_callee_name context function_name :
  Py.startswith "rcu_read_" function_name = true ∨
  Py.startswith "netlink_" function_name = true ∨
  Py.startswith "genl" function_name = true ∨
  ((Py.startswith "rtnl" function_name = true ∨
    Py.startswith "netdev_" function_name = true) ∧
   Py.contains "lock" function_name = true) →
  _extract_lock_name context function_name = function_name.
Proof.
  unfold _extract_lock_name. cbv zeta.
  intros [(b & ->)%startswith_spec|[(b & ->)%startswith_spec|[(b & ->)%startswith_spec|
          [[(b & ->)%startswith_spec|(b & ->)%startswith_spec] Hlock]]]].
  - done.
  - done.
  - done.
  - cbn [existsb Py.startswith String.append Ascii.eqb Bool.eqb orb andb] in *.
    by rewrite Hlock.
  - cbn [existsb Py.startswith String.append Ascii.eqb Bool.eqb orb andb] in *.
    by rewrite Hlock.
Qed.

Lemma lock_name_is_the_callee_name_witness :
  _extract_lock_name "rcu_read_lock();" "rcu_read_lock" = "rcu_read_lock".
Proof.
  apply (lock_name_is_the_callee_name "rcu_read_lock();" "rcu_read_lock").
  left. reflexivity.
Defined.

(** ** The patterns of the read/write locks *)

Lemma string_of_list_ascii_app l1 l2 :
  string_of_list_ascii (l1 ++ l2) = string_of_list_ascii l1 +:+ string_of_list_ascii l2.
Proof. induction l1 as [|c l1 IH]; simpl; [done|]. by rewrite IH. Qed.

Lemma list_ascii_of_string_app s1 s2 :
  list_ascii_of_string (s1 +:+ s2) = list_ascii_of_string s1 ++ list_ascii_of_string s2.
Proof. induction s1 as [|c s1 IH]; simpl; [done|]. by rewrite IH. Qed.

Lemma match_here_lit chars re before rest ing grp g :
  match_here ((Chr <$> chars) ++ re) before rest ing grp = Some g →
  ∃ rest', rest = chars ++ rest'.
Proof.
  revert before rest grp. induction chars as [|c chars IH]; intros before rest grp; simpl.
  - eauto.
  - destruct rest as [|x rest]; [done|].
    destruct (Ascii.eqb_spec x c) as [->|]; [|done].
    intros (rest' & ->)%IH. eauto.
Qed.

Lemma search_from_split re before rest g :
  search_from re before rest = Some g →
  ∃ pre post, rest = pre ++ post ∧
              match_here re (rev pre ++ before) post false [] = Some g.
Proof.
  revert before. induction rest as [|x rest IH]; intros before; simpl.
  - destruct (match_here re before [] false []) eqn:E; [|done].
    intros [= <-]. by exists [], [].
  - destruct (match_here re before (x :: rest) false []) eqn:E.
    + intros [= <-]. by exists [], (x :: rest).
    + intros (pre & post & -> & Hm)%IH. exists (x :: pre), post. split; [done|].
      simpl. by rewrite <-app_assoc.
Qed.

Lemma is_prefix_ascii_spec p l : is_prefix_ascii p l = true ↔ ∃ k, l = p ++ k.
Proof.
  revert l. induction p as [|a p IH]; intros l; simpl.
  - split; [eauto|done].
  - destruct l as [|b l]; [split; [done|by intros (k & ?)]|].
    rewrite andb_true_iff, IH. destruct (Ascii.eqb_spec a b) as [->|Hne].
    + split; [intros [_ (k & ->)]; eauto|]. intros (k & [= ->]). eauto.
    + split; [by intros [? _]|]. intros (k & [= -> _]). done.
Qed.

Lemma match_here_not_behind s re before rest ing grp :
  match_here (NotBehind s :: re) before rest ing grp =
  if is_prefix_ascii (rev (list_ascii_of_string s)) before then None
  else match_here re before rest ing grp.
Proof. reflexivity. Qed.

(** A read/write-lock pattern matches a text only at an occurrence of its
    function name that does not follow [rcu_]. *)
Lemma call_re_not_rcu_match name text :
  is_Some (re_search (call_re_not_rcu name) text) → occurs_not_after_rcu name text.
Proof.
  unfold re_search. intros [g Hg].
  destruct (search_from _ _ _) as [grp|] eqn:Hs; [|done]. clear Hg.
  apply search_from_split in Hs as (pre & post & Htext & Hm).
  rewrite app_nil_r in Hm. unfold call_re_not_rcu in Hm.
  rewrite match_here_not_behind in Hm.
  destruct (is_prefix_ascii _ (rev pre)) eqn:Hbehind; [done|].
  unfold call_re, lit in Hm.
  apply match_here_lit in Hm as (rest' & ->).
  exists (string_of_list_ascii pre), (string_of_list_ascii rest'). split.
  - rewrite <-(string_of_list_ascii_of_string text), Htext.
    by rewrite !string_of_list_ascii_app, string_of_list_ascii_of_string.
  - intros (a' & Ha). apply not_true_iff_false in Hbehind. apply Hbehind.
    apply is_prefix_ascii_spec. exists (rev (list_ascii_of_string a')).
    apply (f_equal list_ascii_of_string) in Ha.
    rewrite list_ascii_of_string_of_list_ascii, list_ascii_of_string_app in Ha.
    rewrite Ha, rev_app_distr. done.
Qed.

(** X23.  The read/write-lock patterns do not take an RCU call for a
    read/write lock: [_identify_lock_operation] reports an operation of
    type [RWLOCK] only when the name of a read/write-lock function occurs
    in the text of the call or in the callee name at a place that does not
    follow [rcu_]. *)
Theorem rwlock_not_identified_after_rcu call caller_function op :
  op ∈ _identify_lock_operation call caller_function →
  lock_type op = RWLOCK →
  ∃ name, name ∈ rwlock_functions ∧
          (occurs_not_after_rcu name (fc_context call) ∨
           occurs_not_after_rcu name (fc_function call)).
Proof.
  unfold _identify_lock_operation. intros Hop%list_elem_of_In Hty.
  apply in_flat_map in Hop as ([lock_type0 ops] & Htab & Hop).
  apply in_flat_map in Hop as ([op_type patterns] & Hops & Hop).
  destruct (existsb _ patterns) eqn:Hex; [|done].
  destruct Hop as [<-|[]]. simpl in Hty. subst lock_type0.
  assert (∃ names, patterns = call_re_not_rcu <$> names ∧
                   ∀ name, name ∈ names → name ∈ rwlock_functions) as (names & -> & Hnames).
  { unfold LOCK_PATTERNS in Htab.
    repeat (destruct Htab as [Htab|Htab]; [try discriminate Htab|]);
      [|by destruct Htab].
    injection Htab as <-.
    destruct Hops as [[= <- <-]|[[= <- <-]|[]]].
    - exists ["read_lock"; "write_lock"; "read_lock_irq"; "write_lock_irq";
              "read_lock_bh"; "write_lock_bh"].
      split; [reflexivity|]. intros name Hname. unfold rwlock_functions. set_solver.
    - exists ["read_unlock"; "write_unlock"; "read_unlock_irq"; "write_unlock_irq";
              "read_unlock_bh"; "write_unlock_bh"].
      split; [reflexivity|]. intros name Hname. unfold rwlock_functions. set_solver. }
  apply existsb_exists in Hex as (pattern & Hpat%list_elem_of_In & Hmatch).
  apply list_elem_of_fmap in Hpat as (name & -> & Hname).
  exists name. split; [by apply Hnames|].
  apply orb_true_iff in Hmatch as [Hm%bool_decide_eq_true|Hm%bool_decide_eq_true];
    [left|right]; by apply call_re_not_rcu_match.
Qed.

Lemma rwlock_not_identified_after_rcu_witness :
  ∃ name, name ∈ rwlock_functions ∧
          (occurs_not_after_rcu name "read_lock(&x);" ∨
           occurs_not_after_rcu name "read_lock").
Proof.
  apply (rwlock_not_identified_after_rcu
           (mkFunctionCall "read_lock" "file.c" 10 "read_lock(&x);") "f"
           (mkLockOperation "x" RWLOCK "acquire" "f" "file.c" 10 "read_lock(&x);")).
  - vm_compute. left.
  - reflexivity.
Defined.

(** ** The call tree *)

Lemma wf_node_unfold i node :
  wf_node i node ↔
  _depth node = i ∧ (_is_leaf node = true ↔ _children node = []) ∧
  wf_tree (i + 1) (_children node).
Proof.
  destruct node as [children is_leaf depth]. simpl.
  assert ((fix wf_list (l : list (string * TreeNode)) : Prop :=
             match l with
             | [] => True
             | (_, child) :: l' => wf_node (i + 1) child ∧ wf_list l'
             end) children ↔ wf_tree (i + 1) children) as ->; [|done].
  unfold wf_tree. induction children as [|[k c] l IH]; simpl.
  - split; [constructor|done].
  - rewrite IH, Forall_cons. done.
Qed.

Lemma wf_tree_get i tree f node :
  wf_tree i tree → dict_get f tree = Some node → wf_node i node.
Proof.
  intros Hwf Hget%dict_get_elem. unfold wf_tree in Hwf. rewrite Forall_forall in Hwf.
  apply (Hwf (f, node) Hget).
Qed.

Lemma wf_tree_set i tree f node :
  wf_tree i tree → wf_node i node → wf_tree i (dict_set f node tree).
Proof.
  unfold wf_tree. intros Hwf Hnode. apply Forall_forall.
  intros kv [->|Hin]%elem_of_dict_set_pair; [done|].
  rewrite Forall_forall in Hwf. by apply Hwf.
Qed.

Lemma dict_set_nonempty {V} k (v : V) d : dict_set k v d ≠ [].
Proof. destruct d as [|[k' v'] d]; simpl; [done|]. by destruct (String.eqb k' k). Qed.

Lemma insert_path_nonempty n i f fs current : insert_path n i (f :: fs) current ≠ [].
Proof. simpl. apply dict_set_nonempty. Qed.

(** Walking a path down the tree keeps the tree well formed. *)
Lemma insert_path_wf n i fs current :
  i + Z.of_nat (length fs) = n →
  wf_tree i current → wf_tree i (insert_path n i fs current).
Proof.
  revert i current. induction fs as [|f fs IH]; intros i current Hlen Hwf; [done|].
  cbn [insert_path]. cbv zeta.
  set (node0 := match dict_get f current with
                | Some node => node
                | None => mkTreeNode [] (bool_decide (i = n - 1)) i
                end).
  assert (_depth node0 = i ∧ wf_tree (i + 1) (_children node0) ∧
          (i = n - 1 → (_is_leaf node0 = true ↔ _children node0 = []))) as (Hd & Hch & Hleaf).
  { subst node0. destruct (dict_get f current) as [node|] eqn:E.
    - apply (wf_tree_get _ _ _ _ Hwf), wf_node_unfold in E as (? & ? & ?). done.
    - simpl. split_and!; [done|constructor|]. intros ->.
      by rewrite bool_decide_eq_true_2. }
  apply wf_tree_set; [done|]. apply wf_node_unfold. cbn [_children _is_leaf _depth].
  simpl length in Hlen.
  destruct (bool_decide (i < n - 1)) eqn:Hlt; cbn [_children _is_leaf _depth].
  - apply bool_decide_eq_true in Hlt. split_and!; [done| |apply IH; [lia|done]].
    destruct fs as [|g fs]; [simpl in Hlen; lia|].
    split; [done|]. by intros ?%insert_path_nonempty.
  - apply bool_decide_eq_false in Hlt.
    destruct fs as [|g fs]; [|simpl length in Hlen; lia].
    simpl. split_and!; [done| |done]. apply Hleaf. simpl in Hlen. lia.
Qed.

Lemma build_call_tree_wf paths : wf_tree 0 (build_call_tree paths).
Proof.
  unfold build_call_tree. apply (fold_left_inv _ (wf_tree 0)); [constructor|].
  intros tree path _ Hwf. apply insert_path_wf; [lia|done].
Qed.

Lemma wf_tree_node_at i tree fs node :
  wf_tree i tree → node_at fs tree = Some node →
  _depth node = i + Z.of_nat (length fs) - 1 ∧
  (_is_leaf node = true ↔ _children node = []).
Proof.
  revert i tree. induction fs as [|f fs IH]; intros i tree Hwf; [done|].
  cbn [node_at]. destruct (dict_get f tree) as [nd|] eqn:E; [|done].
  apply (wf_tree_get _ _ _ _ Hwf), wf_node_unfold in E as (Hd & Hleaf & Hch).
  destruct fs as [|g fs].
  - intros [= <-]. simpl. split; [lia|done].
  - intros Hat. destruct (IH (i + 1) (_children nd) Hch Hat) as [Hd' Hleaf'].
    split; [|done]. rewrite Hd'. simpl length. lia.
Qed.

(** Walking a path down the tree makes the path lead to a node, and keeps
    every sequence that led to a node leading to one. *)
Lemma insert_path_node_at n i fs current :
  fs ≠ [] → is_Some (node_at fs (insert_path n i fs current)).
Proof.
  revert i current. induction fs as [|f fs IH]; intros i current Hne; [done|].
  cbn [insert_path node_at]. cbv zeta. rewrite dict_get_set_eq.
  destruct fs as [|g fs]; [eauto|]. cbn [_children]. by apply IH.
Qed.

Lemma insert_path_keeps_node_at n i fs gs current :
  is_Some (node_at gs current) → is_Some (node_at gs (insert_path n i fs current)).
Proof.
  revert i gs current. induction fs as [|f fs IH]; intros i gs current Hat; [done|].
  destruct gs as [|g gs]; [by destruct Hat|].
  cbn [insert_path node_at] in *. cbv zeta.
  destruct (decide (f = g)) as [->|Hne].
  - rewrite dict_get_set_eq.
    destruct (dict_get g current) as [nd|] eqn:E; [|by destruct Hat].
    destruct gs as [|g' gs]; [eauto|]. cbn [_children].
    destruct (bool_decide (i < n - 1)); cbn [_children]; by apply IH.
  - by rewrite dict_get_set_ne.
Qed.

(** X24.  The tree that [build_call_tree] builds from a list of paths: every
    path of the list leads from the top of the tree to a node; the depth
    recorded in a node is the number of functions before it on the way down;
    and a node is marked as a leaf exactly when it has no children. *)
Theorem call_tree_nodes call_paths :
  let tree := build_call_tree call_paths in
  (∀ p, p ∈ call_paths → functions p ≠ [] → is_Some (node_at (functions p) tree)) ∧
  (∀ fs node, node_at fs tree = Some node →
              _depth node = Z.of_nat (length fs) - 1 ∧
              (_is_leaf node = true ↔ _children node = [])).
Proof.
  intros tree. split.
  - intros p Hp Hne. subst tree. unfold build_call_tree.
    apply (fold_left_elem_inv _
             (λ p (tree : list (string * TreeNode)),
                functions p ≠ [] → is_Some (node_at (functions p) tree)));
      [| |done|done].
    + intros b y _ Hy. by apply insert_path_node_at.
    + intros b y z Hy Hne'. apply insert_path_keeps_node_at. auto.
  - intros fs node Hat.
    destruct (wf_tree_node_at 0 tree fs node (build_call_tree_wf call_paths) Hat).
    split; [lia|done].
Qed.
